(** * Blocked-evaluation tracker (nomad/blocked_evals.go)

    A shallow embedding of [BlockedEvals] and its operations, followed by the
    properties of the tracker: the per-job dedup invariant, the counter
    invariants, the release rules of the unblock worker, and the behaviour of
    [Flush], [GetDuplicates] and [SetEnabled].

    Conventions of the embedding.
    - Go maps are [gmap]s, the [jobs] set is a [gset], slices are lists.
    - Go's [int] is taken to be 64 bits wide; counter arithmetic wraps
      around ([wrap]).
    - The readers-writer lock [l] is a field of the state.  An operation
      that reaches [Lock] while the lock is held parks its caller
      ([Parked]); nothing else runs inside one operation, so a caller parked
      behind a lock whose holder has exited is parked forever.
    - Channels are modelled by their contents: [unblockCh] by its buffer,
      [stopCh] by its closed flag; [duplicateCh] is unbuffered and carries
      no data.  A channel re-created by [make] is a fresh empty channel.
    - What leaves the tracker (starting the worker goroutine, closing the
      stop channel, the wake-up on [duplicateCh], the call to
      [EvalBroker.EnqueueAll]) is recorded as a list of [event]s.
    - [range] over a Go map visits every entry once, in an unspecified
      order; the embedding iterates over [map_to_list], and the properties
      below never depend on that order. *)

From stdpp Require Import base gmap sets list strings numbers.

#[local] Set Warnings "-clear-no-such-hyp".

(** ** Data model *)

(** Modelled from the spec: the declaration of [structs.Evaluation] is not
    part of the source file; the four fields the tracker reads are the ones
    of the spec's data model. *)
Record Evaluation := mkEvaluation {
  ID : string;
  JobID : string;
  EscapedComputedClass : bool;
  ClassEligibility : gmap string bool
}.

#[global] Instance Evaluation_eq_dec : EqDecision Evaluation.
Proof. solve_decision. Defined.

Record BlockedStats := mkBlockedStats {
  TotalEscaped : Z;
  TotalBlocked : Z
}.

#[global] Instance BlockedStats_eq_dec : EqDecision BlockedStats.
Proof. solve_decision. Defined.

(** [sync.RWMutex]: free, held by the writer, or held by [n + 1] readers. *)
Inductive RWMutex := Unlocked | WLocked | RLocked (n : nat).

#[global] Instance RWMutex_eq_dec : EqDecision RWMutex.
Proof. solve_decision. Defined.

Record BlockedEvals := mkBlockedEvals {
  enabled : bool;
  running : bool;
  stats : BlockedStats;
  l : RWMutex;
  captured : gmap string Evaluation;
  escaped : gmap string Evaluation;
  unblockCh : list string;
  jobs : gset string;
  duplicates : list Evaluation;
  stopCh : bool  (* true once the channel has been closed *)
}.

Definition unblockBuffer : Z := 8096.

(** Go's [int], 64 bits, two's complement. *)
Definition wrap (z : Z) : Z := ((z + 2 ^ 63) `mod` 2 ^ 64 - 2 ^ 63)%Z.

Definition max_int : Z := (2 ^ 63 - 1)%Z.

(** [len] of a map and of a slice. *)
Definition len_map {A} (m : gmap string A) : Z := Z.of_nat (size m).
Definition len {A} (s : list A) : Z := Z.of_nat (length s).

(** Field updates. *)
Definition set_enabled (v : bool) (b : BlockedEvals) : BlockedEvals :=
  mkBlockedEvals v (running b) (stats b) (l b) (captured b) (escaped b)
    (unblockCh b) (jobs b) (duplicates b) (stopCh b).
Definition set_running (v : bool) (b : BlockedEvals) : BlockedEvals :=
  mkBlockedEvals (enabled b) v (stats b) (l b) (captured b) (escaped b)
    (unblockCh b) (jobs b) (duplicates b) (stopCh b).
Definition set_stats (v : BlockedStats) (b : BlockedEvals) : BlockedEvals :=
  mkBlockedEvals (enabled b) (running b) v (l b) (captured b) (escaped b)
    (unblockCh b) (jobs b) (duplicates b) (stopCh b).
Definition set_l (v : RWMutex) (b : BlockedEvals) : BlockedEvals :=
  mkBlockedEvals (enabled b) (running b) (stats b) v (captured b) (escaped b)
    (unblockCh b) (jobs b) (duplicates b) (stopCh b).
Definition set_captured (v : gmap string Evaluation) (b : BlockedEvals) : BlockedEvals :=
  mkBlockedEvals (enabled b) (running b) (stats b) (l b) v (escaped b)
    (unblockCh b) (jobs b) (duplicates b) (stopCh b).
Definition set_escaped (v : gmap string Evaluation) (b : BlockedEvals) : BlockedEvals :=
  mkBlockedEvals (enabled b) (running b) (stats b) (l b) (captured b) v
    (unblockCh b) (jobs b) (duplicates b) (stopCh b).
Definition set_unblockCh (v : list string) (b : BlockedEvals) : BlockedEvals :=
  mkBlockedEvals (enabled b) (running b) (stats b) (l b) (captured b) (escaped b)
    v (jobs b) (duplicates b) (stopCh b).
Definition set_jobs (v : gset string) (b : BlockedEvals) : BlockedEvals :=
  mkBlockedEvals (enabled b) (running b) (stats b) (l b) (captured b) (escaped b)
    (unblockCh b) v (duplicates b) (stopCh b).
Definition set_duplicates (v : list Evaluation) (b : BlockedEvals) : BlockedEvals :=
  mkBlockedEvals (enabled b) (running b) (stats b) (l b) (captured b) (escaped b)
    (unblockCh b) (jobs b) v (stopCh b).
Definition set_stopCh (v : bool) (b : BlockedEvals) : BlockedEvals :=
  mkBlockedEvals (enabled b) (running b) (stats b) (l b) (captured b) (escaped b)
    (unblockCh b) (jobs b) (duplicates b) v.

Definition set_TotalEscaped (v : Z) (s : BlockedStats) : BlockedStats :=
  mkBlockedStats v (TotalBlocked s).
Definition set_TotalBlocked (v : Z) (s : BlockedStats) : BlockedStats :=
  mkBlockedStats (TotalEscaped s) v.

(** ** Effects *)

(** What an operation does outside the tracker's own fields.  A slot of a
    slice of [*structs.Evaluation] is [None] while it is still nil. *)
Inductive event :=
  | EvGo                      (* go b.unblock() *)
  | EvCloseStop               (* close(b.stopCh) *)
  | EvDupSignal               (* non-blocking send on b.duplicateCh *)
  | EvEnqueueAll (batch : list (option Evaluation)).

(** The result of running an operation from a state: it returns, its
    goroutine parks (on a held lock or a full channel), or the runtime
    aborts (unlock of a free mutex, close of a closed channel). *)
Inductive outcome (A : Type) :=
  | Done (a : A) (b : BlockedEvals) (evs : list event)
  | Parked
  | Crashed.
Arguments Done {A} a b evs.
Arguments Parked {A}.
Arguments Crashed {A}.

Definition M (A : Type) : Type := BlockedEvals → outcome A.

Definition ret {A} (a : A) : M A := λ b, Done a b [].

Definition bind {A B} (m : M A) (k : A → M B) : M B := λ b,
  match m b with
  | Done a b1 evs1 =>
      match k a b1 with
      | Done r b2 evs2 => Done r b2 (evs1 ++ evs2)
      | Parked => Parked
      | Crashed => Crashed
      end
  | Parked => Parked
  | Crashed => Crashed
  end.

Notation "x <- m ;; k" := (bind m (λ x, k))
  (at level 100, m at next level, k at level 200, right associativity).
Notation "m ;; k" := (bind m (λ _, k))
  (at level 100, k at level 200, right associativity).

Definition get {A} (f : BlockedEvals → A) : M A := λ b, Done (f b) b [].
Definition modify (f : BlockedEvals → BlockedEvals) : M unit := λ b, Done tt (f b) [].
Definition emit (e : event) : M unit := λ b, Done tt b [e].
Definition park {A} : M A := λ _, Parked.
Definition crash {A} : M A := λ _, Crashed.

(** [for _, x := range xs { ... }] with the loop's local variables threaded
    through as [acc]. *)
Fixpoint forM {A S} (xs : list A) (body : A → S → M S) (acc : S) : M S :=
  match xs with
  | [] => ret acc
  | x :: rest => acc' <- body x acc ;; forM rest body acc'
  end.

(** *** The lock *)

Definition Lock : M unit := λ b,
  match l b with
  | Unlocked => Done tt (set_l WLocked b) []
  | _ => Parked
  end.

Definition Unlock : M unit := λ b,
  match l b with
  | WLocked => Done tt (set_l Unlocked b) []
  | _ => Crashed
  end.

Definition RLock : M unit := λ b,
  match l b with
  | Unlocked => Done tt (set_l (RLocked 0) b) []
  | RLocked n => Done tt (set_l (RLocked (S n)) b) []
  | WLocked => Parked
  end.

Definition RUnlock : M unit := λ b,
  match l b with
  | RLocked 0 => Done tt (set_l Unlocked b) []
  | RLocked (S n) => Done tt (set_l (RLocked n) b) []
  | _ => Crashed
  end.

(** ** Operations *)

Definition NewBlockedEvals : BlockedEvals :=
  {| enabled := false; running := false;
     stats := mkBlockedStats 0 0; l := Unlocked;
     captured := ∅; escaped := ∅; unblockCh := []; jobs := ∅;
     duplicates := []; stopCh := false |}.

Definition Enabled : M bool :=
  RLock ;; e <- get enabled ;; RUnlock ;; ret e.

(** The reset of [Flush], lines 266-274. *)
Definition reset (b : BlockedEvals) : BlockedEvals :=
  {| enabled := enabled b; running := running b;
     stats := set_TotalBlocked 0 (set_TotalEscaped 0 (stats b));
     l := l b;
     captured := ∅; escaped := ∅; unblockCh := []; jobs := ∅;
     duplicates := []; stopCh := false |}.

Definition close_stopCh : M unit :=
  closed <- get stopCh ;;
  if closed : bool then crash
  else (modify (set_stopCh true) ;; emit EvCloseStop).

Definition Flush : M unit :=
  Lock ;;
  r <- get running ;;
  (if r : bool then close_stopCh ;; modify (set_running false) else ret tt) ;;
  modify reset ;;
  Unlock.

(** The critical section of [SetEnabled], lines 92-98. *)
Definition SetEnabled_locked (on : bool) : M unit :=
  Lock ;;
  modify (set_enabled on) ;;
  r <- get running ;;
  (if negb r then modify (set_running true) ;; emit EvGo else ret tt) ;;
  Unlock.

Definition SetEnabled (on : bool) : M unit :=
  SetEnabled_locked on ;;
  if negb on then Flush else ret tt.

Definition incr_TotalBlocked (b : BlockedEvals) : BlockedEvals :=
  set_stats (set_TotalBlocked (wrap (TotalBlocked (stats b) + 1)) (stats b)) b.
Definition incr_TotalEscaped (b : BlockedEvals) : BlockedEvals :=
  set_stats (set_TotalEscaped (wrap (TotalEscaped (stats b) + 1)) (stats b)) b.

(** The body of [Block] between [Lock] and the deferred [Unlock]. *)
Definition Block_locked (eval : Evaluation) : M unit :=
  en <- get enabled ;;
  if negb en then ret tt
  else
    js <- get jobs ;;
    if decide (JobID eval ∈ js) then
      modify (λ b, set_duplicates (duplicates b ++ [eval]) b) ;;
      emit EvDupSignal
    else
      modify incr_TotalBlocked ;;
      modify (λ b, set_jobs ({[JobID eval]} ∪ jobs b) b) ;;
      if EscapedComputedClass eval then
        modify (λ b, set_escaped (<[ID eval := eval]> (escaped b)) b) ;;
        modify incr_TotalEscaped
      else
        modify (λ b, set_captured (<[ID eval := eval]> (captured b)) b).

Definition Block (eval : Evaluation) : M unit :=
  Lock ;; Block_locked eval ;; Unlock.

(** [Unblock] reads [enabled] without the lock and sends on the buffered
    channel; the send parks the caller when the buffer is full. *)
Definition Unblock (computedClass : string) : M unit :=
  en <- get enabled ;;
  if negb en then ret tt
  else
    ch <- get unblockCh ;;
    if decide (len ch < unblockBuffer)%Z then
      modify (set_unblockCh (ch ++ [computedClass]))
    else park.

(** How one pass through the worker's [select] ends. *)
Inductive loop_ctl := LoopReturn | LoopNext.

(** Lines 166-176: the escaped evaluations. *)
Definition escaped_body (kv : string * Evaluation)
    (acc : nat * list (option Evaluation)) : M (nat * list (option Evaluation)) :=
  let '(id, eval) := kv in
  let '(i, unblocked) := acc in
  if decide (i < length unblocked) then
    modify (λ b, set_escaped (delete id (escaped b)) b) ;;
    modify (λ b, set_jobs (jobs b ∖ {[JobID eval]}) b) ;;
    ret (S i, <[i := Some eval]> unblocked)
  else crash  (* index out of range *).

Definition unblock_escaped : M (list (option Evaluation)) :=
  esc <- get escaped ;;
  if decide (len_map esc ≠ 0%Z) then
    r <- forM (map_to_list esc) escaped_body (0, replicate (size esc) None) ;;
    ret r.2
  else ret [].

(** Lines 183-198: the captured evaluations. *)
Definition captured_body (computedClass : string) (kv : string * Evaluation)
    (acc : list (option Evaluation) * list string)
    : M (list (option Evaluation) * list string) :=
  let '(id, eval) := kv in
  let '(unblocked, untrack) := acc in
  match ClassEligibility eval !! computedClass with
  | Some false => ret (unblocked, untrack)
  | _ =>
      modify (λ b, set_jobs (jobs b ∖ {[JobID eval]}) b) ;;
      ret (unblocked ++ [Some eval], untrack ++ [id])
  end.

(** The case [computedClass := <-b.unblockCh] of the worker's [select],
    lines 157-215, for a received [computedClass]. *)
Definition unblock_recv (computedClass : string) : M loop_ctl :=
  Lock ;;
  r <- get running ;;
  if negb r then ret LoopReturn
  else
    unblocked <- unblock_escaped ;;
    cap <- get captured ;;
    r <- forM (map_to_list cap) (captured_body computedClass) (unblocked, []) ;;
    let '(unblocked, untrack) := r in
    (if decide (len untrack ≠ 0%Z) then
       forM untrack (λ id _, modify (λ b, set_captured (delete id (captured b)) b)) tt
     else ret tt) ;;
    (if decide (len unblocked ≠ 0%Z) then
       modify (λ b, set_stats (set_TotalEscaped 0 (stats b)) b) ;;
       modify (λ b, set_stats
          (set_TotalBlocked (wrap (TotalBlocked (stats b) - len unblocked)) (stats b)) b) ;;
       emit (EvEnqueueAll unblocked)
     else ret tt) ;;
    Unlock ;;
    ret LoopNext.

(** [GetDuplicates] up to its [select]: either the scan finds duplicates and
    returns them, or the caller goes on to wait, with a timer when
    [timeout] is not zero. *)
Inductive dup_result :=
  | DupReturn (dups : list Evaluation)
  | DupSelect (timer : option Z).

Definition GetDuplicates (timeout : Z) : M dup_result :=
  Lock ;;
  dups <- get duplicates ;;
  if decide (len dups ≠ 0%Z) then
    modify (set_duplicates []) ;;
    Unlock ;;
    ret (DupReturn dups)
  else
    Unlock ;;
    ret (DupSelect (if decide (timeout ≠ 0%Z) then Some timeout else None)).

Definition Stats : M BlockedStats :=
  RLock ;;
  s <- get stats ;;
  RUnlock ;;
  ret (mkBlockedStats (TotalEscaped s) (TotalBlocked s)).

(** ** Call sequences *)

Inductive call :=
  | CSetEnabled (on : bool)
  | CBlock (eval : Evaluation)
  | CUnblock (computedClass : string)
  | CRecv (computedClass : string)   (* the worker receives a notification *)
  | CGetDuplicates (timeout : Z)
  | CFlush
  | CStats.

Definition run1 (c : call) : M unit :=
  match c with
  | CSetEnabled on => SetEnabled on
  | CBlock eval => Block eval
  | CUnblock cl => Unblock cl
  | CRecv cl => unblock_recv cl ;; ret tt
  | CGetDuplicates t => GetDuplicates t ;; ret tt
  | CFlush => Flush
  | CStats => Stats ;; ret tt
  end.

Fixpoint run (cs : list call) : M unit :=
  match cs with
  | [] => ret tt
  | c :: rest => run1 c ;; run rest
  end.

Definition final {A} (o : outcome A) : option BlockedEvals :=
  match o with Done _ b _ => Some b | _ => None end.

(** ** Closed forms

    The definitions of this part are not read off the source: they say in
    one expression what an operation above computes, and the proofs below
    show that it does ([unblock_recv_running], [Flush_idle], [Block_new]). *)

(** [released c eval]: the test of lines 185-191 lets [eval] through. *)
Definition released (computedClass : string) (eval : Evaluation) : bool :=
  match ClassEligibility eval !! computedClass with
  | Some false => false
  | _ => true
  end.

(** [delete] for each key of [ks], as the loop of lines 202-204 does. *)
Definition del_keys {A} (ks : list string) (m : gmap string A) : gmap string A :=
  foldl (λ acc k, delete k acc) m ks.

(** [s[i] = e; i++] for each [e] of [evals]. *)
Fixpoint fill (i : nat) (evals : list Evaluation) (s : list (option Evaluation))
    : list (option Evaluation) :=
  match evals with
  | [] => s
  | e :: rest => fill (S i) rest (<[i := Some e]> s)
  end.

(** The jobs of a list of evaluations. *)
Definition jobs_of (evals : list Evaluation) : gset string :=
  list_to_set (JobID <$> evals).

(** The entries of [captured] that the test lets through. *)
Definition released_entries (computedClass : string) (b : BlockedEvals)
    : list (string * Evaluation) :=
  filter (λ kv, released computedClass kv.2 = true) (map_to_list (captured b)).

(** The batch the worker hands to the broker for [computedClass]. *)
Definition recv_batch (computedClass : string) (b : BlockedEvals)
    : list (option Evaluation) :=
  (Some <$> (map_to_list (escaped b)).*2)
  ++ (Some <$> (released_entries computedClass b).*2).

(** Lines 207-211: the counters after the batch is known. *)
Definition recv_stats (computedClass : string) (b : BlockedEvals) : BlockedStats :=
  if decide (len (recv_batch computedClass b) ≠ 0%Z) then
    mkBlockedStats 0
      (wrap (TotalBlocked (stats b) - len (recv_batch computedClass b)))
  else stats b.

(** The state the worker leaves behind when it is running. *)
Definition recv_state (computedClass : string) (b : BlockedEvals) : BlockedEvals :=
  {| enabled := enabled b; running := running b;
     stats := recv_stats computedClass b;
     l := Unlocked;
     captured := del_keys (released_entries computedClass b).*1 (captured b);
     escaped := ∅;
     unblockCh := unblockCh b;
     jobs := (jobs b ∖ jobs_of (map_to_list (escaped b)).*2)
               ∖ jobs_of (released_entries computedClass b).*2;
     duplicates := duplicates b; stopCh := stopCh b |}.

(** Line 213: [EnqueueAll] is called when the batch is not empty. *)
Definition recv_events (computedClass : string) (b : BlockedEvals) : list event :=
  if decide (len (recv_batch computedClass b) ≠ 0%Z) then
    [EvEnqueueAll (recv_batch computedClass b)]
  else [].

(** ** Tactics *)

Ltac unfold_ops :=
  unfold Block, Block_locked, Flush, close_stopCh, SetEnabled, SetEnabled_locked,
    Unblock, GetDuplicates, Stats, Enabled, Lock, Unlock, RLock, RUnlock,
    bind, get, modify, emit, ret, park, crash in *.

(** ** Vocabulary of the statements *)

(** No operation is inside its critical section and the stop channel of the
    current generation is open; every operation but the stopped worker
    leaves the tracker so. *)
Definition idle (b : BlockedEvals) : Prop := l b = Unlocked ∧ stopCh b = false.

(** The state [Flush] returns. *)
Definition flushed (b : BlockedEvals) : BlockedEvals := set_running false (reset b).

Ltac idle_state b :=
  destruct b as [en rn st lk cap esc uch js dups sc];
  repeat match goal with
         | H : idle _ |- _ => destruct H as [? ?]
         end;
  simpl in *; subst.

(** The state [Block] returns for an evaluation of a job not yet in [jobs]:
    escaped, lines 128-133, and captured, lines 128-129 and 136. *)
Definition block_escaped (eval : Evaluation) (b : BlockedEvals) : BlockedEvals :=
  incr_TotalEscaped
    (set_escaped (<[ID eval := eval]> (escaped b))
       (set_jobs ({[JobID eval]} ∪ jobs b) (incr_TotalBlocked b))).

Definition block_captured (eval : Evaluation) (b : BlockedEvals) : BlockedEvals :=
  set_captured (<[ID eval := eval]> (captured b))
    (set_jobs ({[JobID eval]} ∪ jobs b) (incr_TotalBlocked b)).

(** [eval] is blocked under key [id], in [captured] or in [escaped]. *)
Definition tracked (b : BlockedEvals) (id : string) (eval : Evaluation) : Prop :=
  captured b !! id = Some eval ∨ escaped b !! id = Some eval.

(** The store invariant: keys are the evaluations' IDs, every blocked
    evaluation has its job in [jobs], no two entries belong to one job, no
    ID is in both maps, every job of [jobs] has an entry, and the counters
    are the sizes (as Go [int]s). *)
Record store_ok (b : BlockedEvals) : Prop := {
  ok_id : ∀ id e, tracked b id e → ID e = id;
  ok_job : ∀ id e, tracked b id e → JobID e ∈ jobs b;
  ok_uniq : ∀ id1 e1 id2 e2,
      tracked b id1 e1 → tracked b id2 e2 → JobID e1 = JobID e2 → id1 = id2;
  ok_disj : ∀ id, captured b !! id = None ∨ escaped b !! id = None;
  ok_jobs : ∀ J, J ∈ jobs b → ∃ id e, tracked b id e ∧ JobID e = J;
  ok_total :
    TotalBlocked (stats b) = wrap (len_map (captured b) + len_map (escaped b));
  ok_escaped : TotalEscaped (stats b) = wrap (len_map (escaped b))
}.

(** No blocked evaluation shares its ID with [eval] while belonging to
    another job. *)
Definition fresh_id (b : BlockedEvals) (eval : Evaluation) : Prop :=
  ∀ id e, tracked b id e → ID e = ID eval → JobID e = JobID eval.

(** The evaluations passed to [Block] in a call sequence, in call order. *)
Definition blocked_of (cs : list call) : list Evaluation :=
  cs ≫= λ c, match c with CBlock eval => [eval] | _ => [] end.

(** Evaluation IDs are unique (the data model's assumption on [ID]): among
    [evals], an ID is never shared by evaluations of two jobs. *)
Definition unique_ids (evals : list Evaluation) : Prop :=
  Forall (λ e1, Forall (λ e2, ID e1 = ID e2 → JobID e1 = JobID e2) evals) evals.

(** Same store: [captured], [escaped], [jobs] and the counters agree. *)
Definition same_store (b b' : BlockedEvals) : Prop :=
  captured b' = captured b ∧ escaped b' = escaped b
  ∧ jobs b' = jobs b ∧ stats b' = stats b.

(** Every blocked evaluation is one of [U]. *)
Definition tracked_in (U : list Evaluation) (b : BlockedEvals) : Prop :=
  ∀ id e, tracked b id e → e ∈ U.

(** Sample evaluations. *)
Definition evalA : Evaluation :=
  mkEvaluation "eval-a" "job-1" false {["classA" := false]}.
Definition evalB : Evaluation :=
  mkEvaluation "eval-b" "job-1" false ∅.
Definition evalC : Evaluation :=
  mkEvaluation "eval-c" "job-2" true ∅.
Definition evalD : Evaluation :=
  mkEvaluation "eval-d" "job-3" false {["classA" := true]}.

(** A running, enabled tracker holding [evalA] and [evalD] in [captured],
    [evalC] in [escaped] and [evalB] as a duplicate. *)
Definition busy : BlockedEvals :=
  {| enabled := true; running := true;
     stats := mkBlockedStats 1 3; l := Unlocked;
     captured := {["eval-a" := evalA; "eval-d" := evalD]};
     escaped := {["eval-c" := evalC]};
     unblockCh := []; jobs := {["job-1"; "job-2"; "job-3"]};
     duplicates := [evalB]; stopCh := false |}.

(** The evaluations of job [J] in [captured] and [escaped], counted with
    multiplicity. *)
Definition stored_for (J : string) (b : BlockedEvals) : list Evaluation :=
  filter (λ e, JobID e = J)
    ((map_to_list (captured b)).*2 ++ (map_to_list (escaped b)).*2).

(** What holds after the evaluations [pre] have been blocked, one by one, on
    an enabled tracker. *)
Record dedup_inv (pre : list Evaluation) (b : BlockedEvals) : Prop := {
  di_enabled : enabled b = true;
  di_lock : l b = Unlocked;
  di_ok : store_ok b;
  di_tracked : tracked_in pre b;
  di_dups : ∀ e, e ∈ duplicates b → JobID e ∈ jobs b;
  di_count : ∀ J, length (stored_for J b) = if decide (J ∈ jobs b) then 1 else 0;
  di_order : ∀ J,
      filter (λ e, JobID e = J) pre
      = stored_for J b ++ filter (λ e, JobID e = J) (duplicates b)
}.



(** A running, enabled tracker holding only [evalA], which is not eligible
    for ["classA"]. *)
Definition quiet : BlockedEvals :=
  {| enabled := true; running := true;
     stats := mkBlockedStats 0 1; l := Unlocked;
     captured := {["eval-a" := evalA]}; escaped := ∅;
     unblockCh := []; jobs := {["job-1"]};
     duplicates := []; stopCh := false |}.

(** [captured] holds evaluations that did not escape their computed node
    classes, [escaped] those that did. *)
Definition classified (b : BlockedEvals) : Prop :=
  (∀ id e, captured b !! id = Some e → EscapedComputedClass e = false)
  ∧ (∀ id e, escaped b !! id = Some e → EscapedComputedClass e = true).

(** The calls that are gated on [enabled]. *)
Definition gated_call (c : call) : bool :=
  match c with
  | CBlock _ | CUnblock _ => true
  | _ => false
  end.

(** * Proofs *)

Lemma wrap_small z : (- 2 ^ 63 ≤ z ≤ max_int)%Z → wrap z = z.
Proof.
  unfold wrap, max_int. intros Hz.
  rewrite Z.mod_small; lia.
Qed.

Lemma wrap_plus_l a k : wrap (wrap a + k) = wrap (a + k).
Proof.
  unfold wrap.
  replace ((a + 2 ^ 63) `mod` 2 ^ 64 - 2 ^ 63 + k + 2 ^ 63)%Z
    with ((a + 2 ^ 63) `mod` 2 ^ 64 + k)%Z by lia.
  rewrite Zplus_mod_idemp_l. do 2 f_equal. lia.
Qed.

Lemma wrap_0 : wrap 0 = 0%Z.
Proof. reflexivity. Qed.

Lemma lookup_del_keys {A} (ks : list string) (m : gmap string A) k :
  del_keys ks m !! k = if decide (k ∈ ks) then None else m !! k.
Proof.
  unfold del_keys. revert m. induction ks as [|k0 ks IH]; intros m; cbn [foldl].
  - destruct (decide (k ∈ [])) as [Hin|]; [|done]. by apply elem_of_nil in Hin.
  - rewrite IH.
    destruct (decide (k ∈ ks)) as [Hin|Hnin];
      destruct (decide (k ∈ k0 :: ks)) as [Hin'|Hnin']; try done.
    + exfalso. apply Hnin'. by right.
    + apply elem_of_cons in Hin' as [->|?]; [|done].
      apply lookup_delete_eq.
    + apply lookup_delete_ne. intros ->. apply Hnin'. by left.
Qed.

Lemma del_keys_all {A} (m : gmap string A) : del_keys (map_to_list m).*1 m = ∅.
Proof.
  apply map_eq; intros k. rewrite lookup_del_keys, lookup_empty.
  case_decide as Hk; [done|].
  destruct (m !! k) as [v|] eqn:E; [|done].
  exfalso. apply Hk. apply list_elem_of_fmap. exists (k, v). split; [done|].
  by apply elem_of_map_to_list.
Qed.

Lemma fill_spec evals (pre : list (option Evaluation)) n :
  fill (length pre) evals (pre ++ replicate (length evals + n) None)
  = pre ++ (Some <$> evals) ++ replicate n None.
Proof.
  revert pre. induction evals as [|e evals IH]; intros pre; simpl; [done|].
  rewrite insert_app_r_alt by lia. rewrite Nat.sub_diag. simpl.
  specialize (IH (pre ++ [Some e])).
  rewrite length_app in IH. simpl in IH. rewrite Nat.add_1_r in IH.
  rewrite <- !app_assoc in IH. simpl in IH. exact IH.
Qed.

Lemma forM_escaped kvs i s b :
  i + length kvs ≤ length s →
  forM kvs escaped_body (i, s) b
  = Done (i + length kvs, fill i kvs.*2 s)
      (set_jobs (jobs b ∖ jobs_of kvs.*2)
         (set_escaped (del_keys kvs.*1 (escaped b)) b)) [].
Proof.
  revert i s b. induction kvs as [|[id eval] kvs IH]; intros i s b Hlen.
  - simpl. unfold ret, set_jobs, set_escaped, jobs_of, del_keys. simpl.
    destruct b; simpl. do 2 f_equal; [lia | f_equal; set_solver].
  - simpl in Hlen. simpl. unfold bind at 1. unfold escaped_body at 1.
    rewrite decide_True by lia.
    unfold bind, modify, ret. rewrite IH by (rewrite length_insert; lia). simpl.
    destruct b; simpl. unfold set_jobs, set_escaped, jobs_of. simpl.
    f_equal; [f_equal; lia | f_equal; set_solver].
Qed.

Lemma unblock_escaped_spec b :
  unblock_escaped b
  = Done (Some <$> (map_to_list (escaped b)).*2)
      (set_jobs (jobs b ∖ jobs_of (map_to_list (escaped b)).*2) (set_escaped ∅ b)) [].
Proof.
  unfold unblock_escaped, bind at 1, get.
  unfold len_map. case_decide as Hsz.
  - unfold bind. rewrite forM_escaped
      by (rewrite length_replicate, length_map_to_list; simpl; lia).
    unfold ret. simpl.
    rewrite del_keys_all. f_equal.
    pose proof (fill_spec (map_to_list (escaped b)).*2 [] 0) as Hf.
    simpl in Hf. rewrite Nat.add_0_r, length_fmap, length_map_to_list in Hf.
    rewrite Hf. by rewrite app_nil_r.
  - assert (size (escaped b) = 0) as H0 by lia.
    apply map_size_empty_inv in H0. unfold ret. rewrite H0.
    rewrite map_to_list_empty. simpl. destruct b; simpl in *; subst.
    unfold set_jobs, set_escaped, jobs_of; simpl. f_equal. f_equal. set_solver.
Qed.

Lemma captured_body_released c id eval s u :
  captured_body c (id, eval) (s, u)
  = if released c eval then
      (modify (λ b, set_jobs (jobs b ∖ {[JobID eval]}) b) ;;
       ret (s ++ [Some eval], u ++ [id]))
    else ret (s, u).
Proof.
  unfold captured_body, released.
  by destruct (ClassEligibility eval !! c) as [[|]|].
Qed.

Lemma forM_captured c kvs s u b :
  forM kvs (captured_body c) (s, u) b
  = Done (s ++ (Some <$> (filter (λ kv, released c kv.2 = true) kvs).*2),
          u ++ (filter (λ kv, released c kv.2 = true) kvs).*1)
      (set_jobs (jobs b ∖ jobs_of (filter (λ kv, released c kv.2 = true) kvs).*2) b) [].
Proof.
  revert s u b. induction kvs as [|[id eval] kvs IH]; intros s u b.
  - simpl. unfold ret. rewrite !app_nil_r. destruct b; unfold set_jobs, jobs_of; simpl.
    f_equal. f_equal. set_solver.
  - cbn [forM]. unfold bind at 1. rewrite captured_body_released.
    rewrite filter_cons. cbn [snd].
    destruct (released c eval) eqn:E.
    + unfold bind, modify, ret. rewrite IH.
      rewrite decide_True by done. cbn.
      rewrite <- !app_assoc. cbn. destruct b; unfold set_jobs, jobs_of; cbn.
      f_equal. f_equal. set_solver.
    + unfold ret. rewrite IH. rewrite decide_False by done. done.
Qed.

Lemma forM_untrack ks b :
  forM ks (λ id _, modify (λ b, set_captured (delete id (captured b)) b)) tt b
  = Done tt (set_captured (del_keys ks (captured b)) b) [].
Proof.
  revert b. induction ks as [|k ks IH]; intros b.
  - simpl. unfold ret. by destruct b.
  - cbn [forM]. unfold bind, modify. rewrite IH. by destruct b.
Qed.

Lemma bind_Done {A B} (m : M A) (k : A → M B) b a b1 evs1 :
  m b = Done a b1 evs1 →
  bind m k b = match k a b1 with
               | Done r b2 evs2 => Done r b2 (evs1 ++ evs2)
               | Parked => Parked
               | Crashed => Crashed
               end.
Proof. intros H. unfold bind. by rewrite H. Qed.

(** The worker's case, when it finds itself running, is [recv_state],
    [recv_events]. *)
Lemma unblock_recv_running c b :
  l b = Unlocked → running b = true →
  unblock_recv c b = Done LoopNext (recv_state c b) (recv_events c b).
Proof.
  intros Hl Hr. destruct b as [en run st lk cap esc uch js dups sc].
  simpl in Hl, Hr. subst lk run.
  unfold unblock_recv.
  erewrite bind_Done by reflexivity.
  erewrite bind_Done by reflexivity.
  cbn [running set_l negb].
  erewrite bind_Done by apply unblock_escaped_spec.
  erewrite bind_Done by reflexivity.
  erewrite bind_Done by apply forM_captured.
  unfold recv_state, recv_events, recv_stats, recv_batch, released_entries.
  cbn [captured escaped jobs stats set_jobs set_escaped set_l enabled running l
       unblockCh duplicates stopCh app].
  set (rel := filter (λ kv : string * Evaluation, released c kv.2 = true) (map_to_list cap)).
  set (batch := (Some <$> (map_to_list esc).*2) ++ (Some <$> rel.*2)).
  erewrite bind_Done; cycle 1.
  { case_decide as Hn.
    - apply forM_untrack.
    - unfold ret. destruct (rel.*1) as [|? ?] eqn:E.
      + reflexivity.
      + exfalso. unfold len in Hn. simpl in Hn. lia. }
  cbn [captured set_captured enabled running stats l escaped unblockCh jobs
       duplicates stopCh].
  case_decide as Hb.
  - reflexivity.
  - reflexivity.
Qed.

(** The worker's case, when it finds itself stopped: it returns from
    [unblock] right after [Lock]. *)
Lemma unblock_recv_stopped c b :
  l b = Unlocked → running b = false →
  unblock_recv c b = Done LoopReturn (set_l WLocked b) [].
Proof.
  intros Hl Hr. destruct b as [en run st lk cap esc uch js dups sc].
  simpl in Hl, Hr. subst lk run. reflexivity.
Qed.

Lemma unblock_recv_locked c b : l b ≠ Unlocked → unblock_recv c b = Parked.
Proof.
  intros Hl. unfold unblock_recv, bind, Lock. by destruct (l b).
Qed.

(** ** What each operation returns from an idle tracker *)

Lemma Flush_idle b :
  idle b →
  Flush b = Done tt (flushed b) (if running b then [EvCloseStop] else []).
Proof. intros Hi. idle_state b. destruct rn; reflexivity. Qed.


Lemma flushed_idle b : idle b → idle (flushed b).
Proof. intros [? ?]. by split. Qed.

Lemma SetEnabled_locked_idle on b :
  idle b →
  SetEnabled_locked on b
  = Done tt (set_running true (set_enabled on b))
      (if running b then [] else [EvGo]).
Proof. intros Hi. idle_state b. destruct rn; reflexivity. Qed.

Lemma SetEnabled_idle on b :
  idle b →
  SetEnabled on b
  = if on then
      Done tt (set_running true (set_enabled true b))
        (if running b then [] else [EvGo])
    else
      Done tt (flushed (set_enabled false b))
        ((if running b then [] else [EvGo]) ++ [EvCloseStop]).
Proof. intros Hi. idle_state b. destruct on, rn; reflexivity. Qed.


Lemma Block_disabled eval b :
  l b = Unlocked → enabled b = false → Block eval b = Done tt b [].
Proof. intros Hi He. idle_state b. reflexivity. Qed.

Lemma Block_duplicate eval b :
  l b = Unlocked → enabled b = true → JobID eval ∈ jobs b →
  Block eval b = Done tt (set_duplicates (duplicates b ++ [eval]) b) [EvDupSignal].
Proof.
  intros Hi He Hj. idle_state b. unfold_ops. cbn.
  rewrite decide_True by done. reflexivity.
Qed.

Lemma Block_new eval b :
  l b = Unlocked → enabled b = true → JobID eval ∉ jobs b →
  Block eval b
  = Done tt (if EscapedComputedClass eval then block_escaped eval b
             else block_captured eval b) [].
Proof.
  intros Hi He Hj. idle_state b. unfold_ops. cbn.
  rewrite decide_False by done. destruct (EscapedComputedClass eval); reflexivity.
Qed.

Lemma Block_locked_parks eval b : l b ≠ Unlocked → Block eval b = Parked.
Proof. intros Hl. unfold Block, bind, Lock. by destruct (l b). Qed.

Lemma GetDuplicates_some t b :
  l b = Unlocked → duplicates b ≠ [] →
  GetDuplicates t b = Done (DupReturn (duplicates b)) (set_duplicates [] b) [].
Proof.
  intros Hi Hd. idle_state b. unfold_ops. cbn.
  rewrite decide_True; [done|]. destruct dups; [done|]. unfold len. simpl. lia.
Qed.

Lemma GetDuplicates_none t b :
  l b = Unlocked → duplicates b = [] →
  GetDuplicates t b
  = Done (DupSelect (if decide (t ≠ 0%Z) then Some t else None)) b [].
Proof. intros Hi Hd. idle_state b. reflexivity. Qed.

Lemma Stats_idle b : l b = Unlocked → Stats b = Done (stats b) b [].
Proof. intros Hi. idle_state b. destruct st; reflexivity. Qed.


(** ** The store invariant *)

Lemma store_ok_New : store_ok NewBlockedEvals.
Proof.
  split; unfold tracked; simpl; try done.
  - intros id e [H|H]; by rewrite lookup_empty in H.
  - intros id e [H|H]; by rewrite lookup_empty in H.
  - intros ? ? ? ? [H|H]; by rewrite lookup_empty in H.
  - intros id. left. apply lookup_empty.
Qed.

Lemma store_ok_flushed b : store_ok (flushed b).
Proof.
  split; unfold tracked; simpl; try done.
  - intros id e [H|H]; by rewrite lookup_empty in H.
  - intros id e [H|H]; by rewrite lookup_empty in H.
  - intros ? ? ? ? [H|H]; by rewrite lookup_empty in H.
  - intros id. left. apply lookup_empty.
Qed.

Lemma fresh_not_tracked b eval :
  store_ok b → fresh_id b eval → JobID eval ∉ jobs b →
  captured b !! ID eval = None ∧ escaped b !! ID eval = None.
Proof.
  intros Hok Hf Hj.
  assert (∀ e, ¬ tracked b (ID eval) e) as Hn.
  { intros e Ht. apply Hj. rewrite <- (Hf _ _ Ht (ok_id b Hok _ _ Ht)).
    eapply ok_job; eauto. }
  split.
  - destruct (captured b !! ID eval) eqn:E; [|done]. exfalso. eapply Hn. by left.
  - destruct (escaped b !! ID eval) eqn:E; [|done]. exfalso. eapply Hn. by right.
Qed.

Lemma store_ok_block_captured b eval :
  store_ok b → JobID eval ∉ jobs b →
  captured b !! ID eval = None → escaped b !! ID eval = None →
  store_ok (block_captured eval b).
Proof.
  intros Hok Hj Hc He.
  assert (Ht : ∀ id e, tracked (block_captured eval b) id e →
                       (id = ID eval ∧ e = eval) ∨ tracked b id e).
  { unfold tracked. simpl. intros id e [H|H]; [|by right; right].
    apply lookup_insert_Some in H as [[<- <-]|[_ H]]; [by left | by right; left]. }
  split.
  - intros id e [[-> ->]|H]%Ht; [done | by eapply ok_id].
  - intros id e [[-> ->]|H]%Ht; simpl; [set_solver|].
    apply elem_of_union_r. by eapply ok_job.
  - intros id1 e1 id2 e2 [[-> ->]|H1]%Ht [[-> ->]|H2]%Ht Heq; [done | | |].
    + exfalso. apply Hj. rewrite Heq. by eapply ok_job.
    + exfalso. apply Hj. rewrite <- Heq. by eapply ok_job.
    + by eapply (ok_uniq b Hok).
  - intros id. simpl. destruct (decide (id = ID eval)) as [->|Hne]; [by right|].
    rewrite lookup_insert_ne by done. apply (ok_disj b Hok).
  - intros J. simpl. intros [->%elem_of_singleton|HJ]%elem_of_union.
    + exists (ID eval), eval. split; [|done]. left. simpl. apply lookup_insert_eq.
    + destruct (ok_jobs b Hok J HJ) as (id & e & Hte & HJe).
      exists id, e. split; [|done]. destruct Hte as [H|H]; [left|right]; simpl; [|done].
      rewrite lookup_insert_ne; [done|]. intros <-. congruence.
  - simpl. rewrite (ok_total b Hok), wrap_plus_l. unfold len_map.
    rewrite map_size_insert_None by done. f_equal. lia.
  - simpl. apply (ok_escaped b Hok).
Qed.

Lemma store_ok_block_escaped b eval :
  store_ok b → JobID eval ∉ jobs b →
  captured b !! ID eval = None → escaped b !! ID eval = None →
  store_ok (block_escaped eval b).
Proof.
  intros Hok Hj Hc He.
  assert (Ht : ∀ id e, tracked (block_escaped eval b) id e →
                       (id = ID eval ∧ e = eval) ∨ tracked b id e).
  { unfold tracked. simpl. intros id e [H|H]; [by right; left|].
    apply lookup_insert_Some in H as [[<- <-]|[_ H]]; [by left | by right; right]. }
  split.
  - intros id e [[-> ->]|H]%Ht; [done | by eapply ok_id].
  - intros id e [[-> ->]|H]%Ht; simpl; [set_solver|].
    apply elem_of_union_r. by eapply ok_job.
  - intros id1 e1 id2 e2 [[-> ->]|H1]%Ht [[-> ->]|H2]%Ht Heq; [done | | |].
    + exfalso. apply Hj. rewrite Heq. by eapply ok_job.
    + exfalso. apply Hj. rewrite <- Heq. by eapply ok_job.
    + by eapply (ok_uniq b Hok).
  - intros id. simpl. destruct (decide (id = ID eval)) as [->|Hne]; [by left|].
    rewrite lookup_insert_ne by done. apply (ok_disj b Hok).
  - intros J. simpl. intros [->%elem_of_singleton|HJ]%elem_of_union.
    + exists (ID eval), eval. split; [|done]. right. simpl. apply lookup_insert_eq.
    + destruct (ok_jobs b Hok J HJ) as (id & e & Hte & HJe).
      exists id, e. split; [|done]. destruct Hte as [H|H]; [left|right]; simpl; [done|].
      rewrite lookup_insert_ne; [done|]. intros <-. congruence.
  - simpl. rewrite (ok_total b Hok), wrap_plus_l. unfold len_map.
    rewrite map_size_insert_None by done. f_equal. lia.
  - simpl. rewrite (ok_escaped b Hok), wrap_plus_l. unfold len_map.
    rewrite map_size_insert_None by done. f_equal. lia.
Qed.

Lemma store_ok_ext b b' :
  captured b' = captured b → escaped b' = escaped b → jobs b' = jobs b →
  stats b' = stats b → store_ok b → store_ok b'.
Proof.
  intros Hc He Hj Hs [H1 H2 H3 H4 H5 H6 H7].
  split; unfold tracked in *; rewrite ?Hc, ?He, ?Hj, ?Hs; done.
Qed.

(** [Block] keeps the store invariant when the evaluation's ID is fresh. *)
Lemma store_ok_Block eval b b' evs :
  store_ok b → fresh_id b eval → Block eval b = Done tt b' evs → store_ok b'.
Proof.
  intros Hok Hf HB.
  destruct (decide (l b = Unlocked)) as [Hl|Hl];
    [|by rewrite Block_locked_parks in HB].
  destruct (enabled b) eqn:He.
  - destruct (decide (JobID eval ∈ jobs b)) as [Hj|Hj].
    + rewrite Block_duplicate in HB by done. injection HB as <- <-.
      by eapply store_ok_ext; [..|exact Hok].
    + rewrite Block_new in HB by done. injection HB as <- <-.
      destruct (fresh_not_tracked b eval Hok Hf Hj) as [Hc Hes].
      destruct (EscapedComputedClass eval).
      * by apply store_ok_block_escaped.
      * by apply store_ok_block_captured.
  - rewrite Block_disabled in HB by done. by injection HB as <- <-.
Qed.

(** ** What the running worker leaves in the store *)

Lemma elem_of_released_entries c b id e :
  (id, e) ∈ released_entries c b ↔ captured b !! id = Some e ∧ released c e = true.
Proof.
  unfold released_entries. rewrite list_elem_of_filter, elem_of_map_to_list.
  simpl. tauto.
Qed.

Lemma recv_captured c b id :
  captured (recv_state c b) !! id
  = match captured b !! id with
    | Some e => if released c e then None else Some e
    | None => None
    end.
Proof.
  simpl. rewrite lookup_del_keys.
  destruct (captured b !! id) as [e|] eqn:E.
  - destruct (released c e) eqn:R.
    + rewrite decide_True; [done|]. apply list_elem_of_fmap. exists (id, e).
      split; [done|]. by apply elem_of_released_entries.
    + rewrite decide_False; [done|].
      intros ([id' e'] & -> & [He' R']%elem_of_released_entries)%list_elem_of_fmap.
      simpl in *. congruence.
  - by case_decide.
Qed.

Lemma elem_of_jobs_of J evals : J ∈ jobs_of evals ↔ ∃ e, e ∈ evals ∧ JobID e = J.
Proof.
  unfold jobs_of. rewrite elem_of_list_to_set, list_elem_of_fmap. naive_solver.
Qed.

Lemma elem_of_jobs_of_map J (m : gmap string Evaluation) :
  J ∈ jobs_of (map_to_list m).*2 ↔ ∃ id e, m !! id = Some e ∧ JobID e = J.
Proof.
  rewrite elem_of_jobs_of. split.
  - intros (e & ([id e'] & -> & Hin)%list_elem_of_fmap & HJ).
    apply elem_of_map_to_list in Hin. eauto.
  - intros (id & e & Hm & HJ). exists e. split; [|done].
    apply list_elem_of_fmap. exists (id, e). split; [done|].
    by apply elem_of_map_to_list.
Qed.

Lemma elem_of_jobs_of_released J c b :
  J ∈ jobs_of (released_entries c b).*2
  ↔ ∃ id e, captured b !! id = Some e ∧ released c e = true ∧ JobID e = J.
Proof.
  rewrite elem_of_jobs_of. split.
  - intros (e & ([id e'] & -> & Hin)%list_elem_of_fmap & HJ).
    apply elem_of_released_entries in Hin as [? ?]. eauto.
  - intros (id & e & Hm & R & HJ). exists e. split; [|done].
    apply list_elem_of_fmap. exists (id, e). split; [done|].
    by apply elem_of_released_entries.
Qed.

Lemma recv_jobs c b J :
  J ∈ jobs (recv_state c b)
  ↔ J ∈ jobs b
    ∧ (∀ id e, escaped b !! id = Some e → JobID e ≠ J)
    ∧ (∀ id e, captured b !! id = Some e → released c e = true → JobID e ≠ J).
Proof.
  simpl. rewrite !elem_of_difference, elem_of_jobs_of_map, elem_of_jobs_of_released.
  naive_solver.
Qed.

Lemma size_del_keys {A} (ks : list string) (m : gmap string A) :
  NoDup ks → (∀ k, k ∈ ks → is_Some (m !! k)) →
  size (del_keys ks m) + length ks = size m.
Proof.
  unfold del_keys. revert m. induction ks as [|k ks IH]; intros m Hnd Hin.
  - simpl. lia.
  - inversion_clear Hnd as [|? ? Hk Hnd']. cbn [foldl length].
    assert (size m ≠ 0) as Hm.
    { destruct (Hin k) as [v Hv]; [by left|].
      intros H0%map_size_empty_inv. subst. by rewrite lookup_empty in Hv. }
    specialize (IH (delete k m) Hnd').
    rewrite map_size_delete_Some in IH by (apply Hin; by left).
    rewrite Nat.add_succ_r, IH; [lia|].
    intros k' Hk'. rewrite lookup_delete_ne; [apply Hin; by right|].
    by intros ->.
Qed.

Lemma recv_captured_size c b :
  size (captured (recv_state c b)) + length (released_entries c b)
  = size (captured b).
Proof.
  simpl. rewrite <- (length_fmap fst (released_entries c b)).
  apply size_del_keys.
  - apply (sublist_NoDup _ (map_to_list (captured b)).*1);
      [apply NoDup_fst_map_to_list|].
    apply fmap_sublist. unfold released_entries. apply sublist_filter.
  - intros k ([id e] & -> & [He _]%elem_of_released_entries)%list_elem_of_fmap.
    simpl. eauto.
Qed.

Lemma recv_batch_len c b :
  len (recv_batch c b)
  = (len_map (escaped b) + Z.of_nat (length (released_entries c b)))%Z.
Proof.
  unfold len, recv_batch, len_map.
  rewrite length_app, !length_fmap, length_map_to_list. lia.
Qed.

(** The running worker keeps the store invariant. *)
Lemma store_ok_recv c b : store_ok b → store_ok (recv_state c b).
Proof.
  intros Hok.
  assert (Ht : ∀ id e, tracked (recv_state c b) id e →
                       captured b !! id = Some e ∧ released c e = false).
  { intros id e [H|H]; [|simpl in H; by rewrite lookup_empty in H].
    rewrite recv_captured in H. destruct (captured b !! id) as [e'|]; [|done].
    destruct (released c e') eqn:R; [done|]. by injection H as ->. }
  split.
  - intros id e [H _]%Ht. eapply ok_id; [done|]. by left.
  - intros id e [H R]%Ht. apply recv_jobs. split; [|split].
    + eapply ok_job; [done|]. by left.
    + intros id' e' He' Heq.
      assert (id' = id) as ->.
      { eapply (ok_uniq b Hok); [by right | by left | done]. }
      destruct (ok_disj b Hok id); congruence.
    + intros id' e' He' R' Heq.
      assert (id' = id) as ->.
      { eapply (ok_uniq b Hok); [by left | by left | done]. }
      congruence.
  - intros id1 e1 id2 e2 [H1 _]%Ht [H2 _]%Ht Heq.
    eapply (ok_uniq b Hok); [by left | by left | done].
  - intros id. by right.
  - intros J (HJ & Hesc & Hcap)%recv_jobs.
    destruct (ok_jobs b Hok J HJ) as (id & e & [Hc|He] & HJe).
    + exists id, e. split; [|done]. left. rewrite recv_captured, Hc.
      destruct (released c e) eqn:R; [|done]. by destruct (Hcap id e).
    + by destruct (Hesc id e).
  - pose proof (recv_captured_size c b) as Hsz.
    pose proof (recv_batch_len c b) as Hlen.
    cbn [stats recv_state escaped]. unfold recv_stats. case_decide as Hb.
    + cbn [TotalBlocked]. rewrite (ok_total b Hok).
      replace (wrap (len_map (captured b) + len_map (escaped b)) - len (recv_batch c b))%Z
        with (wrap (len_map (captured b) + len_map (escaped b)) + - len (recv_batch c b))%Z
        by lia.
      rewrite wrap_plus_l. f_equal. unfold len_map in *. rewrite map_size_empty. lia.
    + rewrite (ok_total b Hok). f_equal. unfold len_map in *.
      rewrite map_size_empty. lia.
  - pose proof (recv_batch_len c b) as Hlen.
    cbn [stats recv_state escaped]. unfold recv_stats. case_decide as Hb.
    + reflexivity.
    + rewrite (ok_escaped b Hok). f_equal. unfold len_map in *.
      rewrite map_size_empty. lia.
Qed.

(** ** The invariant along call sequences *)

Lemma unique_ids_spec evals e1 e2 :
  unique_ids evals → e1 ∈ evals → e2 ∈ evals → ID e1 = ID e2 → JobID e1 = JobID e2.
Proof.
  unfold unique_ids. rewrite list.Forall_forall. intros H H1 H2.
  specialize (H e1 H1). rewrite list.Forall_forall in H. by apply H.
Qed.

Lemma same_store_ok U b b' :
  same_store b b' → store_ok b ∧ tracked_in U b → store_ok b' ∧ tracked_in U b'.
Proof.
  intros (Hc & He & Hj & Hs) [Hok HU]. split.
  - by eapply store_ok_ext.
  - unfold tracked_in, tracked in *. by rewrite Hc, He.
Qed.

Lemma Flush_Done b b' evs : Flush b = Done tt b' evs → b' = flushed b.
Proof.
  destruct b as [en rn st lk cap esc uch js dups sc].
  destruct lk, rn, sc; cbn; by intros [= <- <-].
Qed.

Lemma SetEnabled_Done on b b' evs :
  SetEnabled on b = Done tt b' evs →
  same_store b b' ∨ b' = flushed (set_enabled on b).
Proof.
  destruct b as [en rn st lk cap esc uch js dups sc].
  destruct lk, on, rn, sc; cbn; intros [= <- <-];
    first [by left | by right].
Qed.

Lemma Unblock_Done cl b b' evs : Unblock cl b = Done tt b' evs → same_store b b'.
Proof.
  destruct b as [en rn st lk cap esc uch js dups sc].
  unfold_ops. cbn. destruct en; cbn; [|by intros [= <- <-]].
  case_decide; [|done]. by intros [= <- <-].
Qed.

Lemma GetDuplicates_Done t b r b' evs :
  GetDuplicates t b = Done r b' evs → same_store b b'.
Proof.
  destruct b as [en rn st lk cap esc uch js dups sc].
  unfold_ops. cbn. destruct lk; cbn; try done.
  case_decide; cbn; by intros [= <- <- <-].
Qed.

Lemma Stats_Done b r b' evs : Stats b = Done r b' evs → same_store b b'.
Proof.
  destruct b as [en rn st lk cap esc uch js dups sc].
  unfold_ops. cbn. destruct lk as [| |[|n]]; cbn; try done; by intros [= <- <- <-].
Qed.

Lemma unblock_recv_Done c b r b' evs :
  unblock_recv c b = Done r b' evs →
  (running b = true ∧ b' = recv_state c b) ∨ (running b = false ∧ same_store b b').
Proof.
  intros H. destruct (decide (l b = Unlocked)) as [Hl|Hl];
    [|by rewrite unblock_recv_locked in H].
  destruct (running b) eqn:Hr.
  - rewrite unblock_recv_running in H by done. left. by injection H as <- <- <-.
  - rewrite unblock_recv_stopped in H by done. right. by injection H as <- <- <-.
Qed.

Lemma Block_tracked eval b b' evs id e :
  Block eval b = Done tt b' evs → tracked b' id e → e = eval ∨ tracked b id e.
Proof.
  destruct b as [en rn st lk cap esc uch js dups sc].
  unfold_ops. cbn. destruct lk; cbn; try done.
  destruct en; cbn; [|intros [= <- <-]; by right].
  case_decide; cbn; [intros [= <- <-]; by right|].
  unfold tracked.
  destruct (EscapedComputedClass eval); cbn; intros [= <- <-]; cbn;
    intros [Ht|Ht];
    try (by right; left); try (by right; right);
    apply lookup_insert_Some in Ht as [[_ <-]|[_ Ht']]; auto.
Qed.

Lemma bind_inv {A B} (m : M A) (k : A → M B) b r b' evs :
  bind m k b = Done r b' evs →
  ∃ a b1 evs1 evs2,
    m b = Done a b1 evs1 ∧ k a b1 = Done r b' evs2 ∧ evs = evs1 ++ evs2.
Proof.
  unfold bind. destruct (m b) as [a b1 evs1| |]; [|done..].
  destruct (k a b1) as [r' b2 evs2| |] eqn:E; [|done..].
  intros [= <- <- <-]. by exists a, b1, evs1, evs2.
Qed.

Lemma run1_ok U c b b' evs :
  unique_ids U → (∀ e, c = CBlock e → e ∈ U) →
  store_ok b ∧ tracked_in U b →
  run1 c b = Done tt b' evs →
  store_ok b' ∧ tracked_in U b'.
Proof.
  intros HU Hc [Hok Ht] Hrun. destruct c as [on|eval|cl|cl|t| |]; simpl in Hrun.
  - apply SetEnabled_Done in Hrun as [Hs| ->].
    + by eapply same_store_ok.
    + split; [apply store_ok_flushed|].
      intros id e [H|H]; simpl in H; by rewrite lookup_empty in H.
  - split.
    + eapply store_ok_Block; [done| |done].
      intros id e Hte Hid. eapply unique_ids_spec; eauto.
    + intros id e Hte. eapply Block_tracked in Hte as [->|Hte]; eauto.
  - apply Unblock_Done in Hrun. by eapply same_store_ok.
  - apply bind_inv in Hrun as (r & b1 & evs1 & evs2 & Hrun & [= <- _] & _).
    apply unblock_recv_Done in Hrun as [[_ ->]|[_ Hs]].
    + split; [by apply store_ok_recv|].
      intros id e [H|H]; [|simpl in H; by rewrite lookup_empty in H].
      rewrite recv_captured in H. destruct (captured b !! id) as [e'|] eqn:E; [|done].
      destruct (released cl e'); [done|]. injection H as ->.
      apply (Ht id). by left.
    + by eapply same_store_ok.
  - apply bind_inv in Hrun as (r & b1 & evs1 & evs2 & Hrun & [= <- _] & _).
    apply GetDuplicates_Done in Hrun. by eapply same_store_ok.
  - apply Flush_Done in Hrun as ->. split; [apply store_ok_flushed|].
    intros id e [H|H]; simpl in H; by rewrite lookup_empty in H.
  - apply bind_inv in Hrun as (r & b1 & evs1 & evs2 & Hrun & [= <- _] & _).
    apply Stats_Done in Hrun. by eapply same_store_ok.
Qed.

Lemma run_ok U cs b b' evs :
  unique_ids U → (∀ e, e ∈ blocked_of cs → e ∈ U) →
  store_ok b ∧ tracked_in U b →
  run cs b = Done tt b' evs →
  store_ok b' ∧ tracked_in U b'.
Proof.
  intros HU. revert b evs. induction cs as [|c cs IH]; intros b evs Hsub Hb Hrun.
  - simpl in Hrun. by injection Hrun as <- <-.
  - simpl in Hrun.
    apply bind_inv in Hrun as ([] & b1 & evs1 & evs2 & H1 & Hrest & _).
    eapply IH; [| |exact Hrest].
    + intros e He. apply Hsub. unfold blocked_of. simpl.
      apply elem_of_app. by right.
    + eapply run1_ok; [done| |done|done].
      intros e ->. apply Hsub. unfold blocked_of. simpl. by left.
Qed.

(** Every state reached from a new tracker, by calls whose blocked
    evaluations have unique IDs, satisfies the store invariant. *)
Lemma reachable_store_ok cs b evs :
  unique_ids (blocked_of cs) →
  run cs NewBlockedEvals = Done tt b evs → store_ok b.
Proof.
  intros HU Hrun.
  eapply (run_ok (blocked_of cs) cs NewBlockedEvals b evs); [done|done| |done].
  split; [apply store_ok_New|].
  intros id e [H|H]; simpl in H; by rewrite lookup_empty in H.
Qed.

(** ** The sample state is reachable *)

Lemma busy_reached :
  ∃ evs,
    run [CSetEnabled true; CBlock evalA; CBlock evalB; CBlock evalC; CBlock evalD]
      NewBlockedEvals = Done tt busy evs.
Proof. eexists. vm_compute. reflexivity. Qed.

Lemma unique_ids_sample : unique_ids [evalA; evalB; evalC; evalD].
Proof. apply (bool_decide_unpack _). vm_compute. exact I. Qed.

Lemma store_ok_busy : store_ok busy.
Proof.
  destruct busy_reached as [evs H].
  eapply reachable_store_ok; [|exact H]. exact unique_ids_sample.
Qed.

(** ** Counter invariants *)

(** C4: after any sequence of calls on a new tracker ([SetEnabled], [Block],
    [Unblock], the worker processing a notification, [GetDuplicates],
    [Flush], [Stats]), hence after every [Block], every processed
    notification and every [Flush], [TotalBlocked] is
    [|captured| + |escaped|] and [TotalEscaped] is [|escaped|]; evaluations
    in [duplicates] are not counted.  Evaluation IDs are unique, as the data
    model has it, and the two sizes fit Go's [int], as [len] of a map
    always does. *)
Theorem counters_invariant cs b evs :
  unique_ids (blocked_of cs) →
  run cs NewBlockedEvals = Done tt b evs →
  (len_map (captured b) + len_map (escaped b) ≤ max_int)%Z →
  TotalBlocked (stats b) = (len_map (captured b) + len_map (escaped b))%Z
  ∧ TotalEscaped (stats b) = len_map (escaped b).
Proof.
  intros HU Hrun Hfit.
  pose proof (reachable_store_ok cs b evs HU Hrun) as Hok.
  rewrite (ok_total b Hok), (ok_escaped b Hok).
  unfold len_map, max_int in *.
  split; apply wrap_small; unfold max_int; lia.
Qed.

Lemma counters_invariant_witness :
  ∃ b evs,
    run [CSetEnabled true; CBlock evalA; CBlock evalB; CBlock evalC;
         CBlock evalD; CRecv "classA"; CGetDuplicates 0; CBlock evalC]
      NewBlockedEvals = Done tt b evs
    ∧ TotalBlocked (stats b) = 2%Z ∧ TotalEscaped (stats b) = 1%Z.
Proof.
  eexists _, _. split; [vm_compute; reflexivity|].
  refine (counters_invariant
    [CSetEnabled true; CBlock evalA; CBlock evalB; CBlock evalC;
     CBlock evalD; CRecv "classA"; CGetDuplicates 0; CBlock evalC] _ _ _ _ _).
  - apply (bool_decide_unpack _). vm_compute. exact I.
  - vm_compute. reflexivity.
  - vm_compute. discriminate.
Defined.

(** Without unique IDs the counters drift: two evaluations of different jobs
    under one ID occupy a single slot of [captured] and are counted twice. *)
Remark counters_drift_on_shared_id :
  let e1 := mkEvaluation "eval-x" "job-1" false ∅ in
  let e2 := mkEvaluation "eval-x" "job-2" false ∅ in
  ∃ b evs,
    run [CSetEnabled true; CBlock e1; CBlock e2] NewBlockedEvals = Done tt b evs
    ∧ TotalBlocked (stats b) = 2%Z
    ∧ len_map (captured b) = 1%Z ∧ len_map (escaped b) = 0%Z.
Proof. eexists _, _. vm_compute. repeat split; reflexivity. Qed.

(** ** The unblock worker *)

(** C3: when the running worker processes a notification, whatever its
    class, [escaped] ends up empty, every evaluation that was in [escaped]
    is in the batch handed to the broker and its job is no longer in
    [jobs], and [TotalEscaped] is 0 afterwards.  The counter is assumed
    consistent with an empty [escaped] set before, which the counter
    invariant gives. *)
Theorem escaped_always_released c b :
  l b = Unlocked → running b = true →
  (escaped b = ∅ → TotalEscaped (stats b) = 0%Z) →
  ∃ b' evs,
    unblock_recv c b = Done LoopNext b' evs
    ∧ escaped b' = ∅
    ∧ TotalEscaped (stats b') = 0%Z
    ∧ ∀ id e, escaped b !! id = Some e →
        (JobID e ∉ jobs b')
        ∧ ∃ batch, evs = [EvEnqueueAll batch] ∧ Some e ∈ batch.
Proof.
  intros Hl Hr Hcnt. exists (recv_state c b), (recv_events c b).
  split; [by apply unblock_recv_running|]. split; [done|].
  pose proof (recv_batch_len c b) as Hlen.
  split.
  - cbn [stats recv_state]. unfold recv_stats. case_decide as Hb; [done|].
    apply Hcnt. apply map_size_empty_inv. unfold len_map in Hlen. lia.
  - intros id e He. split.
    + rewrite recv_jobs. intros (_ & Hesc & _). by apply (Hesc id e).
    + exists (recv_batch c b). split.
      * unfold recv_events. rewrite decide_True; [done|].
        assert (size (escaped b) ≠ 0); [|unfold len_map in Hlen; lia].
        intros H0%map_size_empty_inv. rewrite H0 in He. by rewrite lookup_empty in He.
      * unfold recv_batch. apply elem_of_app. left.
        apply list_elem_of_fmap_2. apply list_elem_of_fmap. exists (id, e).
        split; [done|]. by apply elem_of_map_to_list.
Qed.

Lemma escaped_always_released_witness :
  ∃ b' evs,
    unblock_recv "classA" busy = Done LoopNext b' evs
    ∧ escaped b' = ∅
    ∧ TotalEscaped (stats b') = 0%Z
    ∧ ∀ id e, escaped busy !! id = Some e →
        (JobID e ∉ jobs b')
        ∧ ∃ batch, evs = [EvEnqueueAll batch] ∧ Some e ∈ batch.
Proof.
  apply (escaped_always_released "classA" busy).
  - reflexivity.
  - reflexivity.
  - vm_compute. discriminate.
Defined.

(** C2: when the running worker processes a notification for class [c], an
    evaluation of [captured] whose [ClassEligibility] maps [c] to [false]
    stays in [captured], its job stays in [jobs] and it is in no batch; an
    evaluation whose [ClassEligibility] maps [c] to [true] or has no entry
    for [c] is removed from [captured], its job is removed from [jobs], and
    it is in the batch handed to the broker. *)
Theorem conservative_release c b :
  l b = Unlocked → running b = true → store_ok b →
  ∃ b' evs,
    unblock_recv c b = Done LoopNext b' evs
    ∧ ∀ id e, captured b !! id = Some e →
        match ClassEligibility e !! c with
        | Some false =>
            captured b' !! id = Some e ∧ JobID e ∈ jobs b'
            ∧ ∀ batch, EvEnqueueAll batch ∈ evs → Some e ∉ batch
        | _ =>
            captured b' !! id = None ∧ (JobID e ∉ jobs b')
            ∧ ∃ batch, evs = [EvEnqueueAll batch] ∧ Some e ∈ batch
        end.
Proof.
  intros Hl Hr Hok. exists (recv_state c b), (recv_events c b).
  split; [by apply unblock_recv_running|].
  intros id e He.
  assert (Hrel : released c e
                 = match ClassEligibility e !! c with Some false => false | _ => true end)
    by done.
  assert (Hin : released c e = true → Some e ∈ recv_batch c b).
  { intros R. unfold recv_batch. apply elem_of_app. right.
    apply list_elem_of_fmap_2. apply list_elem_of_fmap. exists (id, e).
    split; [done|]. by apply elem_of_released_entries. }
  assert (Hout : released c e = true →
            captured (recv_state c b) !! id = None ∧ (JobID e ∉ jobs (recv_state c b))
            ∧ ∃ batch, recv_events c b = [EvEnqueueAll batch] ∧ Some e ∈ batch).
  { intros R. split; [by rewrite recv_captured, He, R|]. split.
    - rewrite recv_jobs. intros (_ & _ & Hcap). by apply (Hcap id e).
    - exists (recv_batch c b). split; [|by apply Hin].
      unfold recv_events. rewrite decide_True; [done|].
      specialize (Hin R). destruct (recv_batch c b); [by apply elem_of_nil in Hin|].
      unfold len. simpl. lia. }
  destruct (ClassEligibility e !! c) as [[|]|] eqn:E; [by apply Hout | | by apply Hout].
  split; [by rewrite recv_captured, He, Hrel|]. split.
  - assert (tracked (recv_state c b) id e) as Ht.
    { left. by rewrite recv_captured, He, Hrel. }
    by apply (ok_job _ (store_ok_recv c b Hok) id e).
  - intros batch Hev. unfold recv_events in Hev. case_decide; [|by apply elem_of_nil in Hev].
    apply list_elem_of_singleton in Hev. injection Hev as ->.
    unfold recv_batch. intros [Hb|Hb]%elem_of_app.
    + apply list_elem_of_fmap in Hb as (e' & [= <-] & Hb).
      apply list_elem_of_fmap in Hb as ([id' e'] & -> & Hb).
      apply elem_of_map_to_list in Hb. simpl in *.
      assert (id' = id) as ->.
      { eapply (ok_uniq b Hok); [by right | by left | done]. }
      destruct (ok_disj b Hok id); congruence.
    + apply list_elem_of_fmap in Hb as (e' & [= <-] & Hb).
      apply list_elem_of_fmap in Hb as ([id' e'] & -> & Hb).
      apply elem_of_released_entries in Hb as [_ R]. simpl in *. congruence.
Qed.

Lemma conservative_release_witness :
  ∃ b' evs,
    unblock_recv "classA" busy = Done LoopNext b' evs
    ∧ (captured b' !! "eval-a" = Some evalA ∧ JobID evalA ∈ jobs b')
    ∧ (captured b' !! "eval-d" = None ∧ (JobID evalD ∉ jobs b')
       ∧ ∃ batch, evs = [EvEnqueueAll batch] ∧ Some evalD ∈ batch).
Proof.
  destruct (conservative_release "classA" busy eq_refl eq_refl store_ok_busy)
    as (b' & evs & Hrun & Hall).
  exists b', evs. split; [exact Hrun|]. split.
  - destruct (Hall "eval-a" evalA eq_refl) as (H1 & H2 & _). by split.
  - exact (Hall "eval-d" evalD eq_refl).
Defined.

(** C5: a worker that receives a notification and finds [running] false
    returns without touching [captured], [escaped], [jobs], [duplicates] or
    the counters.  It returns right after [Lock] and before any [Unlock]:
    the lock stays held by a goroutine that is gone, and [Block], [Flush],
    [SetEnabled], [Stats] and [GetDuplicates] park behind it. *)
Theorem stopped_worker_keeps_lock c b :
  l b = Unlocked → running b = false →
  ∃ b',
    unblock_recv c b = Done LoopReturn b' []
    ∧ captured b' = captured b ∧ escaped b' = escaped b ∧ jobs b' = jobs b
    ∧ duplicates b' = duplicates b ∧ stats b' = stats b
    ∧ l b' = WLocked
    ∧ (∀ eval, Block eval b' = Parked)
    ∧ Flush b' = Parked
    ∧ (∀ on, SetEnabled on b' = Parked)
    ∧ Stats b' = Parked
    ∧ (∀ t, GetDuplicates t b' = Parked).
Proof.
  intros Hl Hr. exists (set_l WLocked b).
  split; [by apply unblock_recv_stopped|].
  repeat split; done.
Qed.

(** The lock is lost on this schedule: [Unblock] has sent a notification,
    [Flush] stops the worker, and the worker's [select] takes the
    notification rather than the stop signal. *)
Lemma stopped_worker_keeps_lock_witness :
  ∃ b0 evs b',
    run [CSetEnabled true; CBlock evalA; CUnblock "classB"; CFlush]
      NewBlockedEvals = Done tt b0 evs
    ∧ unblock_recv "classB" b0 = Done LoopReturn b' []
    ∧ l b' = WLocked
    ∧ Block evalA b' = Parked.
Proof.
  eexists _, _. 
  destruct (stopped_worker_keeps_lock "classB"
              (flushed (set_enabled true NewBlockedEvals)) eq_refl eq_refl)
    as (b' & Hrecv & _ & _ & _ & _ & _ & Hlk & Hblock & _).
  exists b'. split; [vm_compute; reflexivity|].
  split; [exact Hrecv|]. split; [exact Hlk|]. apply Hblock.
Defined.

(** ** Flush *)

Lemma Block_flushed eval b :
  l b = Unlocked → enabled b = true →
  Block eval (flushed b)
  = Done tt (if EscapedComputedClass eval then block_escaped eval (flushed b)
             else block_captured eval (flushed b)) [].
Proof.
  intros Hl He. apply Block_new; [done | done |].
  simpl. apply not_elem_of_empty.
Qed.

(** C6: [Flush] leaves [captured], [escaped], [jobs] and [duplicates] empty
    and [Stats] returns 0 and 0; on an enabled tracker a [Block] that
    follows is taken as new, whatever was blocked before: the evaluation is
    tracked, its job is in [jobs], nothing is appended to [duplicates]; and
    a second [Flush] right after the first returns the same state and does
    nothing else. *)
Theorem flush_resets b :
  idle b →
  ∃ evs,
    Flush b = Done tt (flushed b) evs
    ∧ Stats (flushed b) = Done (mkBlockedStats 0 0) (flushed b) []
    ∧ captured (flushed b) = ∅ ∧ escaped (flushed b) = ∅
    ∧ jobs (flushed b) = ∅ ∧ duplicates (flushed b) = []
    ∧ (enabled b = true →
       ∀ eval, ∃ b2,
         Block eval (flushed b) = Done tt b2 []
         ∧ tracked b2 (ID eval) eval ∧ JobID eval ∈ jobs b2
         ∧ duplicates b2 = [] ∧ TotalBlocked (stats b2) = 1%Z)
    ∧ Flush (flushed b) = Done tt (flushed b) [].
Proof.
  intros Hi. eexists. split; [by apply Flush_idle|].
  split; [rewrite Stats_idle; [done | by destruct Hi]|].
  do 4 (split; [done|]). split.
  - intros He eval. eexists. split; [apply Block_flushed; [by destruct Hi | done]|].
    destruct (EscapedComputedClass eval); simpl.
    + repeat split; try done; [|set_solver].
      right. simpl. apply lookup_insert_eq.
    + repeat split; try done; [|set_solver].
      left. simpl. apply lookup_insert_eq.
  - rewrite Flush_idle by (by apply flushed_idle). done.
Qed.

Lemma flush_resets_witness :
  ∃ evs,
    Flush busy = Done tt (flushed busy) evs
    ∧ Stats (flushed busy) = Done (mkBlockedStats 0 0) (flushed busy) []
    ∧ (∃ b2, Block evalB (flushed busy) = Done tt b2 []
             ∧ tracked b2 (ID evalB) evalB ∧ duplicates b2 = [])
    ∧ Flush (flushed busy) = Done tt (flushed busy) [].
Proof.
  destruct (flush_resets busy (conj eq_refl eq_refl))
    as (evs & HF & HS & _ & _ & _ & _ & HB & HFF).
  exists evs. split; [exact HF|]. split; [exact HS|]. split; [|exact HFF].
  destruct (HB eq_refl evalB) as (b2 & H1 & H2 & _ & H3 & _).
  exists b2. by repeat split.
Defined.



(** ** GetDuplicates *)

Lemma run_scenario_B eval1 eval2 :
  JobID eval1 = JobID eval2 →
  ∃ b evs,
    run [CSetEnabled true; CBlock eval1; CBlock eval2] NewBlockedEvals
      = Done tt b evs
    ∧ l b = Unlocked ∧ duplicates b = [eval2]
    ∧ TotalBlocked (stats b) = 1%Z.
Proof.
  intros HJ. cbn [run run1].
  set (b0 := set_running true (set_enabled true NewBlockedEvals)).
  set (b1 := if EscapedComputedClass eval1 then block_escaped eval1 b0
             else block_captured eval1 b0).
  assert (H0 : SetEnabled true NewBlockedEvals = Done tt b0 [EvGo]) by reflexivity.
  assert (H1 : Block eval1 b0 = Done tt b1 []).
  { apply Block_new; [done | done | simpl; apply not_elem_of_empty]. }
  assert (H2 : Block eval2 b1
               = Done tt (set_duplicates (duplicates b1 ++ [eval2]) b1) [EvDupSignal]).
  { apply Block_duplicate; subst b1 b0; destruct (EscapedComputedClass eval1);
      try done; simpl; rewrite <- HJ; set_solver. }
  erewrite bind_Done by exact H0.
  erewrite (bind_Done (Block eval1)) by exact H1.
  erewrite (bind_Done (Block eval2)) by exact H2.
  cbn [ret app]. eexists _, _. split; [reflexivity|].
  subst b1 b0. by destruct (EscapedComputedClass eval1).
Qed.

(** C7: when [duplicates] is not empty, [GetDuplicates] returns the whole
    list, in the order in which [Block] appended to it, and leaves
    [duplicates] empty within the one critical section; after
    [Block eval1] and [Block eval2] for the same job on an enabled tracker
    it returns [[eval2]], and [Stats] then reports [TotalBlocked] 1. *)
Theorem get_duplicates_drains :
  (∀ t b, l b = Unlocked → duplicates b ≠ [] →
     ∃ b', GetDuplicates t b = Done (DupReturn (duplicates b)) b' []
           ∧ b' = set_duplicates [] b ∧ duplicates b' = [] ∧ l b' = Unlocked)
  ∧ (∀ eval1 eval2, JobID eval1 = JobID eval2 →
       ∃ b evs b' s,
         run [CSetEnabled true; CBlock eval1; CBlock eval2] NewBlockedEvals
           = Done tt b evs
         ∧ GetDuplicates 0 b = Done (DupReturn [eval2]) b' []
         ∧ Stats b' = Done s b' []
         ∧ TotalBlocked s = 1%Z).
Proof.
  split.
  - intros t b Hl Hd. eexists. split; [by apply GetDuplicates_some|].
    repeat split; done.
  - intros eval1 eval2 HJ.
    destruct (run_scenario_B eval1 eval2 HJ) as (b & evs & Hrun & Hl & Hd & Ht).
    exists b, evs, (set_duplicates [] b), (stats b).
    split; [done|]. split; [|split; [|done]].
    + rewrite GetDuplicates_some; [by rewrite Hd | done | by rewrite Hd].
    + by rewrite Stats_idle.
Qed.

Lemma get_duplicates_drains_witness :
  (∃ b', GetDuplicates 0 busy = Done (DupReturn [evalB]) b' [] ∧ duplicates b' = [])
  ∧ (∃ b evs b' s,
       run [CSetEnabled true; CBlock evalA; CBlock evalB] NewBlockedEvals
         = Done tt b evs
       ∧ GetDuplicates 0 b = Done (DupReturn [evalB]) b' []
       ∧ Stats b' = Done s b' []
       ∧ TotalBlocked s = 1%Z).
Proof.
  destruct get_duplicates_drains as [Hgen Hscen]. split.
  - destruct (Hgen 0%Z busy eq_refl) as (b' & H1 & _ & H2 & _); [discriminate|].
    exists b'. by split.
  - exact (Hscen evalA evalB eq_refl).
Defined.

(** ** Block on a disabled tracker *)

(** C8: on a disabled tracker [Block] returns and changes nothing:
    [captured], [escaped], [jobs], [duplicates] and both counters are as
    before, nothing leaves the tracker, and [Stats] returns after the
    [Block] what it returned before. *)
Theorem block_disabled_noop eval b :
  l b = Unlocked → enabled b = false →
  Block eval b = Done tt b []
  ∧ (Block eval ;; Stats) b = Stats b.
Proof.
  intros Hl He. pose proof (Block_disabled eval b Hl He) as HB.
  split; [done|].
  erewrite bind_Done by exact HB. rewrite Stats_idle by done. done.
Qed.

Lemma block_disabled_noop_witness :
  ∃ b0 evs,
    SetEnabled false NewBlockedEvals = Done tt b0 evs
    ∧ Block evalA b0 = Done tt b0 []
    ∧ (Block evalA ;; Stats) b0 = Stats b0.
Proof.
  eexists _, _. split; [reflexivity|].
  apply (block_disabled_noop evalA); reflexivity.
Defined.

(** ** SetEnabled *)

(** C9: when no worker is running, [SetEnabled on] starts one and sets
    [running], whatever [on] is: its critical section ends with [running]
    true and one [go b.unblock()].  With [on] false the [Flush] that follows
    closes the stop channel and sets [running] back to false; on a new
    tracker [SetEnabled false] so starts a worker, signals it to stop, and
    leaves the tracker as it was. *)
Theorem set_enabled_starts_worker on b :
  idle b → running b = false →
  (∃ b1, SetEnabled_locked on b = Done tt b1 [EvGo]
         ∧ running b1 = true ∧ enabled b1 = on)
  ∧ (on = true →
     ∃ b2, SetEnabled on b = Done tt b2 [EvGo] ∧ running b2 = true)
  ∧ (on = false →
     ∃ b2, SetEnabled on b = Done tt b2 [EvGo; EvCloseStop]
           ∧ running b2 = false ∧ enabled b2 = false)
  ∧ SetEnabled false NewBlockedEvals = Done tt NewBlockedEvals [EvGo; EvCloseStop].
Proof.
  intros Hi Hr. split; [|split; [|split]].
  - eexists. rewrite SetEnabled_locked_idle, Hr by done. done.
  - intros ->. eexists. rewrite SetEnabled_idle, Hr by done. done.
  - intros ->. eexists. rewrite SetEnabled_idle, Hr by done. done.
  - reflexivity.
Qed.

Lemma set_enabled_starts_worker_witness :
  (∃ b1, SetEnabled_locked false NewBlockedEvals = Done tt b1 [EvGo]
         ∧ running b1 = true ∧ enabled b1 = false)
  ∧ (∃ b2, SetEnabled false NewBlockedEvals = Done tt b2 [EvGo; EvCloseStop]
           ∧ running b2 = false ∧ enabled b2 = false).
Proof.
  destruct (set_enabled_starts_worker false NewBlockedEvals
              (conj eq_refl eq_refl) eq_refl) as (H1 & _ & H2 & _).
  split; [exact H1 | exact (H2 eq_refl)].
Defined.

(** ** One blocked evaluation per job *)

Lemma perm_short {A} (l1 l2 : list A) : l1 ≡ₚ l2 → length l1 ≤ 1 → l1 = l2.
Proof.
  intros Hp Hlen. destruct l1 as [|x [|y l1]]; simpl in Hlen; [| |lia].
  - by apply Permutation_nil_l.
  - by apply Permutation_singleton_l.
Qed.

Lemma stored_for_block_captured J eval b :
  captured b !! ID eval = None →
  stored_for J (block_captured eval b)
  ≡ₚ filter (λ e, JobID e = J) [eval] ++ stored_for J b.
Proof.
  intros Hc. unfold stored_for. cbn [captured escaped block_captured
    set_captured set_jobs incr_TotalBlocked set_stats].
  rewrite map_to_list_insert by done. rewrite fmap_cons. cbn [snd].
  rewrite <- list.filter_app. done.
Qed.

Lemma stored_for_block_escaped J eval b :
  escaped b !! ID eval = None →
  stored_for J (block_escaped eval b)
  ≡ₚ filter (λ e, JobID e = J) [eval] ++ stored_for J b.
Proof.
  intros Hc. unfold stored_for. cbn [captured escaped block_escaped
    set_escaped set_jobs incr_TotalBlocked incr_TotalEscaped set_stats].
  rewrite map_to_list_insert by done. rewrite fmap_cons. cbn [snd].
  rewrite <- list.filter_app. apply filter_Permutation.
  cbn [app]. symmetry. apply Permutation_middle.
Qed.

Lemma dedup_inv_Block pre eval b :
  unique_ids (pre ++ [eval]) → dedup_inv pre b →
  ∃ b' evs, Block eval b = Done tt b' evs ∧ dedup_inv (pre ++ [eval]) b'.
Proof.
  intros HU [He Hl Hok Ht Hd Hcnt Hord].
  destruct (decide (JobID eval ∈ jobs b)) as [Hj|Hj].
  - eexists _, _. split; [by apply Block_duplicate|].
    split; try done.
    + by eapply store_ok_ext; [..|exact Hok].
    + intros id e Hte. apply elem_of_app. left. by apply (Ht id).
    + simpl. intros e [Hin| ->%list_elem_of_singleton]%elem_of_app; auto.
    + intros J. cbn [duplicates set_duplicates].
      rewrite !list.filter_app, Hord. by rewrite app_assoc.
  - assert (Hfresh : fresh_id b eval).
    { intros id e Hte Hid. eapply (unique_ids_spec _ e eval HU); [| |done].
      - apply elem_of_app. left. by apply (Ht id).
      - apply elem_of_app. right. by apply list_elem_of_singleton. }
    destruct (fresh_not_tracked b eval Hok Hfresh Hj) as [Hc Hes].
    assert (Hnone : ∀ J, J = JobID eval →
              stored_for J b = [] ∧ filter (λ e, JobID e = J) (duplicates b) = []
              ∧ filter (λ e, JobID e = J) pre = []).
    { intros J ->.
      assert (stored_for (JobID eval) b = []) as Hs.
      { apply length_zero_iff_nil. rewrite Hcnt. by rewrite decide_False. }
      assert (filter (λ e, JobID e = JobID eval) (duplicates b) = []) as Hf.
      { apply elem_of_nil_inv. intros e [HJe Hin]%list_elem_of_filter.
        apply Hj. rewrite <- HJe. by apply Hd. }
      by rewrite Hord, Hs, Hf. }
    set (b' := if EscapedComputedClass eval then block_escaped eval b
               else block_captured eval b).
    assert (Hperm : ∀ J, stored_for J b'
                         ≡ₚ filter (λ e, JobID e = J) [eval] ++ stored_for J b).
    { intros J. subst b'. destruct (EscapedComputedClass eval).
      - by apply stored_for_block_escaped.
      - by apply stored_for_block_captured. }
    assert (Hjobs : jobs b' = {[JobID eval]} ∪ jobs b).
    { subst b'. by destruct (EscapedComputedClass eval). }
    assert (Hdups : duplicates b' = duplicates b).
    { subst b'. by destruct (EscapedComputedClass eval). }
    assert (Hstored : ∀ J, stored_for J b'
                           = filter (λ e, JobID e = J) [eval] ++ stored_for J b).
    { intros J. symmetry. apply perm_short; [by rewrite Hperm|].
      rewrite length_app, Hcnt. rewrite filter_cons, filter_nil.
      destruct (decide (JobID eval = J)) as [<-|Hne]; simpl.
      - by rewrite decide_False.
      - case_decide; lia. }
    exists b', []. split; [by apply Block_new|].
    split.
    + subst b'. by destruct (EscapedComputedClass eval).
    + subst b'. by destruct (EscapedComputedClass eval).
    + subst b'. destruct (EscapedComputedClass eval).
      * by apply store_ok_block_escaped.
      * by apply store_ok_block_captured.
    + intros id e Hte. apply elem_of_app.
      eapply (Block_tracked eval b b' []) in Hte as [->|Hte];
        [right; by apply list_elem_of_singleton | left; by apply (Ht id)
        | by apply Block_new].
    + intros e. rewrite Hdups, Hjobs. intros Hin. apply elem_of_union_r. by apply Hd.
    + intros J. rewrite Hstored, length_app, Hcnt, Hjobs.
      rewrite filter_cons, filter_nil.
      destruct (decide (JobID eval = J)) as [<-|Hne]; simpl.
      * rewrite decide_False by done. rewrite decide_True; [done|set_solver].
      * destruct (decide (J ∈ jobs b)).
        -- rewrite decide_True; [done|set_solver].
        -- rewrite decide_False; [done|set_solver].
    + intros J. rewrite Hstored, Hdups, list.filter_app, Hord.
      rewrite filter_cons, filter_nil.
      destruct (decide (JobID eval = J)) as [<-|Hne]; simpl.
      * destruct (Hnone (JobID eval) eq_refl) as (-> & -> & _). done.
      * by rewrite app_nil_r.
Qed.

Lemma unique_ids_app_l evals1 evals2 :
  unique_ids (evals1 ++ evals2) → unique_ids evals1.
Proof.
  intros HU. unfold unique_ids. apply list.Forall_forall. intros e1 H1.
  apply list.Forall_forall. intros e2 H2.
  apply (unique_ids_spec _ e1 e2 HU); apply elem_of_app; by left.
Qed.

Lemma dedup_inv_run evals pre b :
  unique_ids (pre ++ evals) → dedup_inv pre b →
  ∃ b' evs, run (CBlock <$> evals) b = Done tt b' evs
            ∧ dedup_inv (pre ++ evals) b'.
Proof.
  revert pre b. induction evals as [|eval evals IH]; intros pre b HU Hinv.
  - exists b, []. split; [done|]. by rewrite app_nil_r.
  - destruct (dedup_inv_Block pre eval b) as (b1 & evs1 & HB & Hinv1); [|done|].
    { apply (unique_ids_app_l _ evals). by rewrite <- app_assoc. }
    destruct (IH (pre ++ [eval]) b1) as (b' & evs & Hrun & Hinv'); [|done|].
    { by rewrite <- app_assoc. }
    exists b', (evs1 ++ evs). split.
    + cbn [fmap list_fmap run run1]. erewrite bind_Done by exact HB.
      change (list_fmap Evaluation call CBlock evals) with (CBlock <$> evals).
      by rewrite Hrun.
    + by rewrite <- app_assoc in Hinv'.
Qed.

Lemma dedup_inv_enabled :
  dedup_inv [] (set_running true (set_enabled true NewBlockedEvals)).
Proof.
  split; try done.
  - by eapply store_ok_ext; [..|exact store_ok_New].
  - intros id e [H|H]; simpl in H; by rewrite lookup_empty in H.
  - simpl. intros e H. by apply elem_of_nil in H.
Qed.

(** C1: after [SetEnabled true] and any sequence of [Block] calls on a new
    tracker, for every job [J]: at most one evaluation of [J] is in
    [captured] and [escaped] together; [J] is in [jobs] exactly when there
    is one; and the evaluations blocked for [J] are, in call order, the one
    that is stored followed by those of [J] in [duplicates].  Evaluation IDs
    are unique, as the data model has it. *)
Theorem dedup_invariant evals :
  unique_ids evals →
  ∃ b evs,
    run (CSetEnabled true :: (CBlock <$> evals)) NewBlockedEvals = Done tt b evs
    ∧ ∀ J,
        length (stored_for J b) ≤ 1
        ∧ (J ∈ jobs b ↔ length (stored_for J b) = 1)
        ∧ filter (λ e, JobID e = J) evals
          = stored_for J b ++ filter (λ e, JobID e = J) (duplicates b).
Proof.
  intros HU.
  destruct (dedup_inv_run evals [] _ HU dedup_inv_enabled)
    as (b & evs & Hrun & Hinv).
  exists b, ([EvGo] ++ evs). split.
  - cbn [run run1].
    assert (H0 : SetEnabled true NewBlockedEvals
                 = Done tt (set_running true (set_enabled true NewBlockedEvals)) [EvGo])
      by reflexivity.
    erewrite bind_Done by exact H0. by rewrite Hrun.
  - intros J. destruct Hinv as [_ _ _ _ _ Hcnt Hord]. specialize (Hcnt J).
    split; [|split].
    + rewrite Hcnt. case_decide; lia.
    + rewrite Hcnt. case_decide; split; intros; try done; lia.
    + apply Hord.
Qed.

Lemma dedup_invariant_witness :
  ∃ b evs,
    run (CSetEnabled true :: (CBlock <$> [evalA; evalB; evalC; evalD; evalB]))
      NewBlockedEvals = Done tt b evs
    ∧ duplicates b = [evalB; evalB]
    ∧ ∀ J,
        length (stored_for J b) ≤ 1
        ∧ (J ∈ jobs b ↔ length (stored_for J b) = 1)
        ∧ filter (λ e, JobID e = J) [evalA; evalB; evalC; evalD; evalB]
          = stored_for J b ++ filter (λ e, JobID e = J) (duplicates b).
Proof.
  assert (HU : unique_ids [evalA; evalB; evalC; evalD; evalB]).
  { apply (bool_decide_unpack _). vm_compute. exact I. }
  destruct (dedup_invariant [evalA; evalB; evalC; evalD; evalB] HU)
    as (b & evs & Hrun & Hall).
  exists b, evs. split; [exact Hrun|]. split; [|exact Hall].
  vm_compute in Hrun. injection Hrun as <- _. reflexivity.
Defined.


(** The store invariant ties the counter to an empty [escaped] set. *)
Lemma store_ok_escaped_counter b :
  store_ok b → escaped b = ∅ → TotalEscaped (stats b) = 0%Z.
Proof.
  intros Hok He. rewrite (ok_escaped b Hok), He. reflexivity.
Qed.

(** Without unique IDs a job can stay in [jobs] with no evaluation stored:
    the second evaluation takes the first one's slot in [captured]. *)
Remark job_without_evaluation_on_shared_id :
  let e1 := mkEvaluation "eval-x" "job-1" false ∅ in
  let e2 := mkEvaluation "eval-x" "job-2" false ∅ in
  ∃ b evs,
    run [CSetEnabled true; CBlock e1; CBlock e2] NewBlockedEvals = Done tt b evs
    ∧ "job-1" ∈ jobs b ∧ stored_for "job-1" b = [].
Proof.
  eexists _, _. split; [vm_compute; reflexivity|]. split.
  - apply (bool_decide_unpack _). vm_compute. exact I.
  - vm_compute. reflexivity.
Qed.


(** * Further properties of the operations *)

(** ** Returning, parking, aborting *)

Lemma Enabled_idle b : l b = Unlocked → Enabled b = Done (enabled b) b [].
Proof. intros Hl. idle_state b. reflexivity. Qed.







(** ** Unblock *)



(** ** More on the worker's pass *)

Lemma released_entries_recv_state c b : released_entries c (recv_state c b) = [].
Proof.
  apply elem_of_nil_inv. intros [id e] [Hc R]%elem_of_released_entries.
  rewrite recv_captured in Hc. destruct (captured b !! id) as [e'|]; [|done].
  destruct (released c e') eqn:R'; [done|]. injection Hc as ->. congruence.
Qed.

Lemma recv_state_noop c b :
  l b = Unlocked → escaped b = ∅ → released_entries c b = [] →
  recv_state c b = b ∧ recv_events c b = [].
Proof.
  intros Hl He Hrel.
  assert (Hb : recv_batch c b = []).
  { unfold recv_batch. by rewrite Hrel, He, map_to_list_empty. }
  split.
  - unfold recv_state, recv_stats. rewrite Hb, Hrel, He, map_to_list_empty.
    destruct b as [en rn st lk cap esc uch js dups sc]. simpl in *. subst.
    f_equal. unfold jobs_of. simpl. set_solver.
  - unfold recv_events. by rewrite Hb.
Qed.

(** X4: a second notification for the same class right after the first is a
    no-op: the worker releases nothing, calls the broker not at all, and
    leaves the tracker as the first pass left it. *)
Theorem recv_idempotent c b :
  l b = Unlocked → running b = true →
  ∃ b1 evs1,
    unblock_recv c b = Done LoopNext b1 evs1
    ∧ unblock_recv c b1 = Done LoopNext b1 [].
Proof.
  intros Hl Hr. exists (recv_state c b), (recv_events c b).
  split; [by apply unblock_recv_running|].
  rewrite unblock_recv_running by done.
  destruct (recv_state_noop c (recv_state c b)) as [-> ->];
    [done | done | apply released_entries_recv_state | done].
Qed.

Lemma recv_idempotent_witness :
  ∃ b1 evs1,
    unblock_recv "classA" busy = Done LoopNext b1 evs1
    ∧ unblock_recv "classA" b1 = Done LoopNext b1 [].
Proof. apply (recv_idempotent "classA" busy); reflexivity. Defined.

Lemma tracked_recv_state c b id e :
  tracked (recv_state c b) id e →
  captured b !! id = Some e ∧ released c e = false.
Proof.
  intros [H|H]; [|simpl in H; by rewrite lookup_empty in H].
  rewrite recv_captured in H. destruct (captured b !! id) as [e'|]; [|done].
  destruct (released c e') eqn:R; [done|]. by injection H as ->.
Qed.

Lemma recv_events_batch c b :
  recv_events c b
  = match recv_batch c b with [] => [] | _ => [EvEnqueueAll (recv_batch c b)] end.
Proof.
  unfold recv_events. destruct (recv_batch c b) as [|x batch].
  - rewrite decide_False; [done|]. intros H. by apply H.
  - rewrite decide_True; [done|]. unfold len. simpl. lia.
Qed.

(** X5: one pass of the running worker loses nothing and invents nothing:
    every blocked evaluation is afterwards either still blocked or in the
    batch; every slot of the batch holds an evaluation that was blocked and
    no longer is; the batch has as many slots as entries left [captured]
    and [escaped]; and the broker is called once with the batch, or not at
    all when the batch is empty. *)
Theorem recv_conservation c b :
  l b = Unlocked → running b = true → store_ok b →
  ∃ b' batch,
    unblock_recv c b
    = Done LoopNext b' (match batch with [] => [] | _ => [EvEnqueueAll batch] end)
    ∧ (∀ id e, tracked b id e → tracked b' id e ∨ Some e ∈ batch)
    ∧ (∀ x, x ∈ batch → ∃ id e, x = Some e ∧ tracked b id e ∧ ¬ tracked b' id e)
    ∧ length batch + size (captured b') = size (captured b) + size (escaped b).
Proof.
  intros Hl Hr Hok. exists (recv_state c b), (recv_batch c b).
  split; [rewrite <- recv_events_batch; by apply unblock_recv_running|].
  split; [|split].
  - intros id e [Hc|He].
    + destruct (released c e) eqn:R.
      * right. unfold recv_batch. apply elem_of_app. right.
        apply list_elem_of_fmap_2. apply list_elem_of_fmap. exists (id, e).
        split; [done|]. by apply elem_of_released_entries.
      * left. left. by rewrite recv_captured, Hc, R.
    + right. unfold recv_batch. apply elem_of_app. left.
      apply list_elem_of_fmap_2. apply list_elem_of_fmap. exists (id, e).
      split; [done|]. by apply elem_of_map_to_list.
  - intros x. unfold recv_batch. intros [Hx|Hx]%elem_of_app.
    + apply list_elem_of_fmap in Hx as (e & -> & Hx).
      apply list_elem_of_fmap in Hx as ([id e'] & -> & Hx).
      apply elem_of_map_to_list in Hx. simpl.
      exists id, e'. split; [done|]. split; [by right|].
      intros [Hc _]%tracked_recv_state.
      destruct (ok_disj b Hok id); congruence.
    + apply list_elem_of_fmap in Hx as (e & -> & Hx).
      apply list_elem_of_fmap in Hx as ([id e'] & -> & Hx).
      apply elem_of_released_entries in Hx as [Hc R]. simpl.
      exists id, e'. split; [done|]. split; [by left|].
      intros [Hc' R']%tracked_recv_state. congruence.
  - pose proof (recv_captured_size c b) as Hsz.
    unfold recv_batch. rewrite length_app, !length_fmap, length_map_to_list.
    lia.
Qed.

Lemma recv_conservation_witness :
  ∃ b' batch,
    unblock_recv "classA" busy
    = Done LoopNext b' (match batch with [] => [] | _ => [EvEnqueueAll batch] end)
    ∧ (tracked b' "eval-a" evalA ∨ Some evalA ∈ batch)
    ∧ length batch + size (captured b') = 3.
Proof.
  destruct (recv_conservation "classA" busy eq_refl eq_refl store_ok_busy)
    as (b' & batch & Hrun & Hkeep & _ & Hsz).
  exists b', batch. split; [exact Hrun|]. split; [|exact Hsz].
  apply Hkeep. left. reflexivity.
Defined.

(** X6: the batch the running worker hands to the broker has no nil slot and
    holds at most one evaluation per job. *)
Theorem batch_one_per_job c b :
  l b = Unlocked → running b = true → store_ok b →
  ∃ b' evals,
    unblock_recv c b
    = Done LoopNext b'
        (match evals with [] => [] | _ => [EvEnqueueAll (Some <$> evals)] end)
    ∧ NoDup (JobID <$> evals).
Proof.
  intros Hl Hr Hok.
  set (L := map_to_list (escaped b) ++ released_entries c b).
  assert (Hbatch : recv_batch c b = Some <$> L.*2).
  { unfold recv_batch, L. by rewrite !fmap_app. }
  exists (recv_state c b), L.*2. split.
  - rewrite unblock_recv_running, recv_events_batch, Hbatch by done.
    by destruct (L.*2).
  - assert (HL : ∀ id e, (id, e) ∈ L → tracked b id e).
    { intros id e [H|H]%elem_of_app.
      - right. by apply elem_of_map_to_list.
      - left. by apply elem_of_released_entries in H as [? _]. }
    rewrite <- list_fmap_compose. apply NoDup_fmap_2_strong.
    + intros [id1 e1] [id2 e2] H1%HL H2%HL Heq. simpl in Heq.
      assert (id1 = id2) as -> by (by eapply (ok_uniq b Hok)).
      f_equal. destruct H1 as [H1|H1], H2 as [H2|H2]; try congruence;
        destruct (ok_disj b Hok id2); congruence.
    + unfold L. apply list.NoDup_app. split; [apply NoDup_map_to_list|]. split.
      * intros [id e] He%elem_of_map_to_list [Hc _]%elem_of_released_entries.
        destruct (ok_disj b Hok id); congruence.
      * unfold released_entries. apply list.NoDup_filter, NoDup_map_to_list.
Qed.

Lemma batch_one_per_job_witness :
  ∃ b' evals,
    unblock_recv "classA" busy
    = Done LoopNext b'
        (match evals with [] => [] | _ => [EvEnqueueAll (Some <$> evals)] end)
    ∧ NoDup (JobID <$> evals).
Proof.
  exact (batch_one_per_job "classA" busy eq_refl eq_refl store_ok_busy).
Defined.

(** ** Block and release *)

Lemma wrap_wrap a : wrap (wrap a) = wrap a.
Proof.
  pose proof (wrap_plus_l a 0) as H. by rewrite !Z.add_0_r in H.
Qed.

Lemma store_ok_quiet : store_ok quiet.
Proof.
  assert (H : ∃ evs, run [CSetEnabled true; CBlock evalA] NewBlockedEvals
                     = Done tt quiet evs).
  { eexists. vm_compute. reflexivity. }
  destruct H as [evs H].
  eapply reachable_store_ok; [|exact H].
  apply (bool_decide_unpack _). vm_compute. exact I.
Qed.

(** X7: blocking an evaluation and then processing a notification that
    releases it and nothing else gives the tracker back as it was: on a
    tracker with nothing escaped and nothing in [captured] eligible for
    class [c], [Block eval] followed by the worker's pass for [c] returns
    the initial state and hands the broker the batch [[eval]], when [eval]
    is escaped or not marked ineligible for [c]. *)
Theorem block_release_roundtrip c eval b :
  l b = Unlocked → enabled b = true → running b = true → store_ok b →
  escaped b = ∅ →
  (∀ id e, captured b !! id = Some e → ClassEligibility e !! c = Some false) →
  JobID eval ∉ jobs b → fresh_id b eval →
  EscapedComputedClass eval = true ∨ ClassEligibility eval !! c ≠ Some false →
  (Block eval ;; unblock_recv c) b = Done LoopNext b [EvEnqueueAll [Some eval]].
Proof.
  intros Hl He Hr Hok Hesc Hcap Hj Hfresh Hrel.
  destruct (fresh_not_tracked b eval Hok Hfresh Hj) as [Hc0 He0].
  assert (Hnone : released_entries c b = []).
  { apply elem_of_nil_inv. intros [id e] [Hc R]%elem_of_released_entries.
    unfold released in R. by rewrite (Hcap id e Hc) in R. }
  assert (HTE : TotalEscaped (stats b) = 0%Z).
  { by rewrite (ok_escaped b Hok), Hesc. }
  assert (HTB : wrap (wrap (TotalBlocked (stats b) + 1) - 1) = TotalBlocked (stats b)).
  { replace (wrap (TotalBlocked (stats b) + 1) - 1)%Z
      with (wrap (TotalBlocked (stats b) + 1) + -1)%Z by lia.
    rewrite wrap_plus_l.
    replace (TotalBlocked (stats b) + 1 + -1)%Z with (TotalBlocked (stats b)) by lia.
    rewrite (ok_total b Hok). apply wrap_wrap. }
  erewrite bind_Done by (by apply Block_new).
  destruct (EscapedComputedClass eval) eqn:Eesc.
  - rewrite unblock_recv_running by done.
    assert (Hb : recv_batch c (block_escaped eval b) = [Some eval]).
    { unfold recv_batch.
      change (released_entries c (block_escaped eval b)) with (released_entries c b).
      rewrite Hnone. cbn [escaped block_escaped set_escaped incr_TotalEscaped set_stats].
      rewrite Hesc, insert_empty, map_to_list_singleton. done. }
    rewrite recv_events_batch, Hb. f_equal.
    unfold recv_state, recv_stats. rewrite Hb.
    change (released_entries c (block_escaped eval b)) with (released_entries c b).
    rewrite Hnone.
    destruct b as [en rn [te tb] lk cap esc uch js dups sc]. simpl in *. subst.
    rewrite insert_empty, map_to_list_singleton. simpl.
    change (len [Some eval]) with 1%Z.
    f_equal; [by rewrite HTB|]. unfold jobs_of. simpl. set_solver.
  - destruct Hrel as [?|Hrel]; [done|].
    assert (R : released c eval = true).
    { unfold released. by destruct (ClassEligibility eval !! c) as [[|]|]. }
    rewrite unblock_recv_running by done.
    assert (Hre : released_entries c (block_captured eval b) = [(ID eval, eval)]).
    { symmetry. apply Permutation_singleton_l. unfold released_entries.
      cbn [captured block_captured set_captured].
      rewrite map_to_list_insert by done. rewrite filter_cons. cbn [snd].
      rewrite decide_True by done.
      change (filter _ (map_to_list (captured b))) with (released_entries c b).
      by rewrite Hnone. }
    assert (Hb : recv_batch c (block_captured eval b) = [Some eval]).
    { unfold recv_batch. rewrite Hre.
      change (escaped (block_captured eval b)) with (escaped b).
      by rewrite Hesc, map_to_list_empty. }
    rewrite recv_events_batch, Hb. f_equal.
    unfold recv_state, recv_stats. rewrite Hb, Hre.
    destruct b as [en rn [te tb] lk cap esc uch js dups sc]. simpl in *. subst.
    rewrite map_to_list_empty. simpl.
    change (len [Some eval]) with 1%Z.
    f_equal; [by rewrite HTB | by apply delete_insert_id |].
    unfold jobs_of. simpl. set_solver.
Qed.

Lemma block_release_roundtrip_witness :
  (Block evalD ;; unblock_recv "classA") quiet
  = Done LoopNext quiet [EvEnqueueAll [Some evalD]].
Proof.
  apply (block_release_roundtrip "classA" evalD quiet);
    try reflexivity.
  - exact store_ok_quiet.
  - intros id e H. simpl in H.
    apply lookup_singleton_Some in H as [_ <-]. reflexivity.
  - vm_compute. intros H. by apply (bool_decide_pack _) in H.
  - intros id e [H|H] Hid; simpl in H.
    + apply lookup_singleton_Some in H as [_ <-]. discriminate Hid.
    + by rewrite lookup_empty in H.
  - right. vm_compute. discriminate.
Defined.

(** X8: what a [Block] for a job finds after the worker's pass depends on
    what the pass did with the job's evaluation.  When the evaluation stayed
    blocked (it is in [captured] and marked ineligible for the class), the
    new evaluation is appended to [duplicates] and nothing else changes;
    when it was released, the job is free again and the new evaluation is
    blocked in its place, [duplicates] untouched. *)
Theorem block_after_pass c b id e eval :
  l b = Unlocked → enabled b = true → running b = true → store_ok b →
  tracked b id e → JobID eval = JobID e →
  ∃ b1 evs1 b2 evs2,
    unblock_recv c b = Done LoopNext b1 evs1
    ∧ Block eval b1 = Done tt b2 evs2
    ∧ if decide (captured b !! id = Some e ∧ ClassEligibility e !! c = Some false)
      then duplicates b2 = duplicates b ++ [eval] ∧ same_store b1 b2
      else duplicates b2 = duplicates b ∧ tracked b2 (ID eval) eval
           ∧ JobID eval ∈ jobs b2.
Proof.
  intros Hl He Hr Hok Ht HJ.
  exists (recv_state c b), (recv_events c b).
  case_decide as Hcase.
  - destruct Hcase as [Hc Hf].
    assert (R : released c e = false) by (unfold released; by rewrite Hf).
    assert (Hin : JobID eval ∈ jobs (recv_state c b)).
    { rewrite HJ. apply (ok_job _ (store_ok_recv c b Hok) id e).
      left. by rewrite recv_captured, Hc, R. }
    eexists _, _. split; [by apply unblock_recv_running|].
    split; [by apply Block_duplicate|]. by split.
  - assert (Hout : JobID eval ∉ jobs (recv_state c b)).
    { rewrite HJ, recv_jobs. intros (_ & Hesc & Hcap).
      destruct Ht as [Hc|Hes]; [|by apply (Hesc id e)].
      apply (Hcap id e); [done| |done].
      unfold released. destruct (ClassEligibility e !! c) as [[|]|] eqn:E; try done.
      by destruct Hcase. }
    eexists _, _. split; [by apply unblock_recv_running|].
    split; [by apply Block_new|].
    destruct (EscapedComputedClass eval); simpl.
    + split; [done|]. split; [|set_solver]. right. simpl. apply lookup_insert_eq.
    + split; [done|]. split; [|set_solver]. left. simpl. apply lookup_insert_eq.
Qed.

Lemma block_after_pass_witness :
  (∃ b1 evs1 b2 evs2,
     unblock_recv "classA" busy = Done LoopNext b1 evs1
     ∧ Block evalB b1 = Done tt b2 evs2
     ∧ duplicates b2 = [evalB; evalB])
  ∧ (∃ b1 evs1 b2 evs2,
       unblock_recv "classB" busy = Done LoopNext b1 evs1
       ∧ Block evalB b1 = Done tt b2 evs2
       ∧ duplicates b2 = [evalB] ∧ tracked b2 "eval-b" evalB).
Proof.
  split.
  - destruct (block_after_pass "classA" busy "eval-a" evalA evalB
                eq_refl eq_refl eq_refl store_ok_busy (or_introl eq_refl) eq_refl)
      as (b1 & evs1 & b2 & evs2 & H1 & H2 & H3).
    exists b1, evs1, b2, evs2. split; [exact H1|]. split; [exact H2|].
    rewrite decide_True in H3 by (split; reflexivity). exact (proj1 H3).
  - destruct (block_after_pass "classB" busy "eval-a" evalA evalB
                eq_refl eq_refl eq_refl store_ok_busy (or_introl eq_refl) eq_refl)
      as (b1 & evs1 & b2 & evs2 & H1 & H2 & H3).
    exists b1, evs1, b2, evs2. split; [exact H1|]. split; [exact H2|].
    rewrite decide_False in H3 by (intros [_ H]; vm_compute in H; discriminate H).
    destruct H3 as (H3 & H4 & _). by split.
Defined.

(** X12: [Block] tests the job, not the ID.  An evaluation of a job that is
    not tracked, whose ID is the key of an evaluation already in [captured],
    takes that evaluation's place: the earlier one is gone from [captured]
    without being released or reported in [duplicates], its job stays in
    [jobs], and [TotalBlocked] counts both while [captured] keeps its
    size. *)
Theorem block_replaces_shared_id eval e0 b :
  l b = Unlocked → enabled b = true →
  JobID eval ∉ jobs b → EscapedComputedClass eval = false →
  captured b !! ID eval = Some e0 →
  ∃ b',
    Block eval b = Done tt b' []
    ∧ captured b' = <[ID eval := eval]> (captured b)
    ∧ size (captured b') = size (captured b)
    ∧ (e0 ≠ eval → ∀ id, captured b' !! id = Some e0 → captured b !! id = Some e0 ∧ id ≠ ID eval)
    ∧ escaped b' = escaped b
    ∧ duplicates b' = duplicates b
    ∧ jobs b' = {[JobID eval]} ∪ jobs b
    ∧ TotalBlocked (stats b') = wrap (TotalBlocked (stats b) + 1).
Proof.
  intros Hl He Hj Hesc Hc. exists (block_captured eval b).
  split; [rewrite Block_new by done; by rewrite Hesc|].
  split; [done|]. split.
  - simpl. apply map_size_insert_Some. by rewrite Hc.
  - split; [|done]. intros Hne id. simpl.
    destruct (decide (id = ID eval)) as [->|Hid].
    + rewrite lookup_insert_eq. congruence.
    + by rewrite lookup_insert_ne.
Qed.

Lemma block_replaces_shared_id_witness :
  let eval := mkEvaluation "eval-a" "job-9" false ∅ in
  ∃ b',
    Block eval quiet = Done tt b' []
    ∧ captured b' !! "eval-a" = Some eval
    ∧ size (captured b') = 1
    ∧ jobs b' = {["job-9"]} ∪ {["job-1"]}
    ∧ TotalBlocked (stats b') = 2%Z.
Proof.
  intros eval.
  destruct (block_replaces_shared_id eval evalA quiet) as
      (b' & HB & Hcap & Hsz & _ & _ & _ & Hjobs & HTB); try reflexivity.
  - vm_compute. intros H. by apply (bool_decide_pack _) in H.
  - exists b'. split; [exact HB|]. split; [by rewrite Hcap|].
    split; [exact Hsz|]. split; [exact Hjobs | exact HTB].
Defined.

(** ** SetEnabled, Enabled and GetDuplicates *)

(** X9: [Enabled] after [SetEnabled on] returns [on], for either value of
    [on] (the [Flush] that follows a disable leaves the flag alone), and
    the tracker is idle again. *)
Theorem enabled_after_set_enabled on b :
  idle b →
  ∃ b' evs, (SetEnabled on ;; Enabled) b = Done on b' evs ∧ idle b'.
Proof.
  intros Hi. pose proof Hi as [Hl Hs].
  unfold bind. rewrite SetEnabled_idle by done.
  destruct on.
  - rewrite Enabled_idle by done. eexists _, _. split; [done|]. by split.
  - rewrite Enabled_idle by done. eexists _, _. split; [done|]. by split.
Qed.

Lemma enabled_after_set_enabled_witness :
  ∃ b' evs, (SetEnabled false ;; Enabled) busy = Done false b' evs ∧ idle b'.
Proof. apply (enabled_after_set_enabled false busy). by split. Defined.

(** X10: [SetEnabled true] leaves [captured], [escaped], [jobs], the
    counters, [duplicates] and the buffered notifications as they are, and
    starts a worker only when none is running; a second [SetEnabled true]
    changes nothing and starts no second worker. *)
Theorem set_enabled_true_once b :
  idle b →
  ∃ b1,
    SetEnabled true b = Done tt b1 (if running b then [] else [EvGo])
    ∧ same_store b b1
    ∧ duplicates b1 = duplicates b ∧ unblockCh b1 = unblockCh b
    ∧ enabled b1 = true ∧ running b1 = true
    ∧ SetEnabled true b1 = Done tt b1 [].
Proof.
  intros Hi. exists (set_running true (set_enabled true b)).
  split; [by rewrite SetEnabled_idle|].
  repeat split; try done.
  rewrite SetEnabled_idle by (destruct Hi; by split). done.
Qed.

Lemma set_enabled_true_once_witness :
  ∃ b1,
    SetEnabled true NewBlockedEvals = Done tt b1 [EvGo]
    ∧ SetEnabled true b1 = Done tt b1 [].
Proof.
  destruct (set_enabled_true_once NewBlockedEvals (conj eq_refl eq_refl))
    as (b1 & H1 & _ & _ & _ & _ & _ & H2).
  exists b1. by split.
Defined.

(** X11: duplicates are handed out once.  After a [GetDuplicates] that
    returned the list, the next [GetDuplicates] finds nothing, changes
    nothing and goes on to wait, with a timer only when its timeout is not
    zero; the jobs of the returned duplicates stay in [jobs]. *)
Theorem duplicates_returned_once t t' b :
  l b = Unlocked → duplicates b ≠ [] →
  ∃ b1,
    GetDuplicates t b = Done (DupReturn (duplicates b)) b1 []
    ∧ GetDuplicates t' b1
      = Done (DupSelect (if decide (t' ≠ 0%Z) then Some t' else None)) b1 []
    ∧ jobs b1 = jobs b.
Proof.
  intros Hl Hd. exists (set_duplicates [] b).
  split; [by apply GetDuplicates_some|].
  split; [by apply GetDuplicates_none|done].
Qed.

Lemma duplicates_returned_once_witness :
  ∃ b1,
    GetDuplicates 0 busy = Done (DupReturn [evalB]) b1 []
    ∧ GetDuplicates 0 b1 = Done (DupSelect None) b1 []
    ∧ jobs b1 = jobs busy.
Proof.
  apply (duplicates_returned_once 0 0 busy); [reflexivity | discriminate].
Defined.

(** ** More invariants of call sequences *)

Lemma classified_same_store b b' : same_store b b' → classified b → classified b'.
Proof.
  intros (Hc & He & _ & _) [H1 H2]. unfold classified. by rewrite Hc, He.
Qed.

Lemma classified_empty b : captured b = ∅ → escaped b = ∅ → classified b.
Proof.
  intros Hc He. unfold classified. rewrite Hc, He.
  split; intros id e H; by rewrite lookup_empty in H.
Qed.

Lemma classified_Block eval b b' evs :
  classified b → Block eval b = Done tt b' evs → classified b'.
Proof.
  intros [H1 H2] HB.
  destruct (decide (l b = Unlocked)) as [Hl|Hl];
    [|by rewrite Block_locked_parks in HB].
  destruct (enabled b) eqn:He.
  - destruct (decide (JobID eval ∈ jobs b)) as [Hj|Hj].
    + rewrite Block_duplicate in HB by done. by injection HB as <- <-.
    + rewrite Block_new in HB by done. injection HB as <- <-.
      destruct (EscapedComputedClass eval) eqn:E; split; simpl; try done.
      * intros id e [[_ <-]|[_ H]]%lookup_insert_Some; [done|by eapply H2].
      * intros id e [[_ <-]|[_ H]]%lookup_insert_Some; [done|by eapply H1].
  - rewrite Block_disabled in HB by done. by injection HB as <- <-.
Qed.

Lemma classified_run1 c b b' evs :
  classified b → run1 c b = Done tt b' evs → classified b'.
Proof.
  intros Hcl Hrun. destruct c as [on|eval|cl|cl|t| |]; simpl in Hrun.
  - apply SetEnabled_Done in Hrun as [Hs| ->].
    + by eapply classified_same_store.
    + by apply classified_empty.
  - by eapply classified_Block.
  - apply Unblock_Done in Hrun. by eapply classified_same_store.
  - apply bind_inv in Hrun as (r & b1 & evs1 & evs2 & Hrun & [= <- _] & _).
    apply unblock_recv_Done in Hrun as [[_ ->]|[_ Hs]].
    + split; [|intros id e H; simpl in H; by rewrite lookup_empty in H].
      intros id e H. assert (tracked (recv_state cl b) id e) as Ht by (by left).
      apply tracked_recv_state in Ht as [Hc _]. by apply (proj1 Hcl id).
    + by eapply classified_same_store.
  - apply bind_inv in Hrun as (r & b1 & evs1 & evs2 & Hrun & [= <- _] & _).
    apply GetDuplicates_Done in Hrun. by eapply classified_same_store.
  - apply Flush_Done in Hrun as ->. by apply classified_empty.
  - apply bind_inv in Hrun as (r & b1 & evs1 & evs2 & Hrun & [= <- _] & _).
    apply Stats_Done in Hrun. by eapply classified_same_store.
Qed.

(** X13: after any sequence of calls on a new tracker, every evaluation in
    [captured] has [EscapedComputedClass] false and every evaluation in
    [escaped] has it true, whether or not IDs are unique. *)
Theorem stored_by_class cs b evs :
  run cs NewBlockedEvals = Done tt b evs →
  (∀ id e, captured b !! id = Some e → EscapedComputedClass e = false)
  ∧ (∀ id e, escaped b !! id = Some e → EscapedComputedClass e = true).
Proof.
  assert (H : ∀ b0, classified b0 → run cs b0 = Done tt b evs → classified b).
  { revert evs. induction cs as [|c cs IH]; intros evs b0 Hcl Hrun.
    - simpl in Hrun. by injection Hrun as <- <-.
    - simpl in Hrun.
      apply bind_inv in Hrun as ([] & b1 & evs1 & evs2 & H1 & Hrest & _).
      eapply IH; [|exact Hrest]. by eapply classified_run1. }
  intros Hrun. apply (H NewBlockedEvals); [|done].
  by apply classified_empty.
Qed.

Lemma stored_by_class_witness :
  ∃ b evs,
    run [CSetEnabled true; CBlock evalA; CBlock evalC; CRecv "classA"; CBlock evalC]
      NewBlockedEvals = Done tt b evs
    ∧ (∀ id e, captured b !! id = Some e → EscapedComputedClass e = false)
    ∧ (∀ id e, escaped b !! id = Some e → EscapedComputedClass e = true).
Proof.
  eexists _, _. split; [vm_compute; reflexivity|].
  eapply (stored_by_class
    [CSetEnabled true; CBlock evalA; CBlock evalC; CRecv "classA"; CBlock evalC]).
  vm_compute. reflexivity.
Defined.

(** X14: a disabled tracker ignores [Block] and [Unblock]: any sequence of
    them returns with the tracker exactly as it was, nothing buffered,
    nothing signalled. *)
Theorem disabled_ignores_calls cs b :
  l b = Unlocked → enabled b = false → forallb gated_call cs = true →
  run cs b = Done tt b [].
Proof.
  intros Hl He. induction cs as [|c cs IH]; intros Hcs; [done|].
  simpl in Hcs. apply andb_prop in Hcs as [Hc Hcs].
  cbn [run]. destruct c as [on|eval|cl|cl|t| |]; try done; cbn [run1].
  - erewrite bind_Done by (by apply Block_disabled).
    rewrite IH by done. reflexivity.
  - assert (H : Unblock cl b = Done tt b []).
    { unfold Unblock, bind, get, ret. rewrite He. reflexivity. }
    erewrite bind_Done by exact H. rewrite IH by done. reflexivity.
Qed.

Lemma disabled_ignores_calls_witness :
  run [CBlock evalA; CUnblock "classA"; CBlock evalB; CBlock evalC]
    NewBlockedEvals = Done tt NewBlockedEvals [].
Proof.
  apply (disabled_ignores_calls
           [CBlock evalA; CUnblock "classA"; CBlock evalB; CBlock evalC]
           NewBlockedEvals); reflexivity.
Defined.

(** X15: after any sequence of calls on a new tracker, with unique IDs and
    map sizes that fit an [int], the counters are ordered:
    [0 <= TotalEscaped <= TotalBlocked]. *)
Theorem counters_ordered cs b evs :
  unique_ids (blocked_of cs) →
  run cs NewBlockedEvals = Done tt b evs →
  (len_map (captured b) + len_map (escaped b) ≤ max_int)%Z →
  (0 ≤ TotalEscaped (stats b) ≤ TotalBlocked (stats b))%Z.
Proof.
  intros HU Hrun Hfit.
  pose proof (reachable_store_ok cs b evs HU Hrun) as Hok.
  rewrite (ok_total b Hok), (ok_escaped b Hok).
  unfold len_map, max_int in *.
  rewrite !wrap_small by (unfold max_int; lia). lia.
Qed.

Lemma counters_ordered_witness :
  ∃ b evs,
    run [CSetEnabled true; CBlock evalA; CBlock evalC; CBlock evalD]
      NewBlockedEvals = Done tt b evs
    ∧ (0 ≤ TotalEscaped (stats b) ≤ TotalBlocked (stats b))%Z.
Proof.
  eexists _, _. split; [vm_compute; reflexivity|].
  refine (counters_ordered
    [CSetEnabled true; CBlock evalA; CBlock evalC; CBlock evalD] _ _ _ _ _).
  - apply (bool_decide_unpack _). vm_compute. exact I.
  - vm_compute. reflexivity.
  - vm_compute. discriminate.
Defined.
